(** * Child-list management of a scene-tree container

    A shallow embedding of [childrenHelperMixin.ts]
    (src/rendering/scene/container-mixins): the operations that insert,
    remove, reorder and reparent the children of a [Container], with the
    notifications they emit and the calls they make to the layer group.

    Containers are JavaScript objects that refer to each other (a parent
    holds its children, a child points back at its parent), so the model is a
    store of container records addressed by reference, and every operation is
    a computation over that store.  A [throw] leaves the store as it is at the
    point of the throw: nothing is rolled back, exactly as in JavaScript. *)

From Stdlib Require Import ZArith Lia.
From stdpp Require Import base decidable option list.

Open Scope Z_scope.

(** ** Data model *)

(** A reference to a container object. *)
Definition node := nat.

(** A reference to a layer group, the external flat render-order index. *)
Definition layer := nat.

(** The fields of [Container] that the mixin reads or writes. *)
Record Container := mkContainer {
  children : list node;
  parent : option node;
  didChange : bool;
  didViewUpdate : bool;
  updateFlags : Z;
  sortDirty : bool;
  sortChildren : bool;
  layerGroup : option layer
}.

Definition with_children (cs : list node) (c : Container) : Container :=
  mkContainer cs (parent c) (didChange c) (didViewUpdate c) (updateFlags c)
              (sortDirty c) (sortChildren c) (layerGroup c).

Definition with_parent (p : option node) (c : Container) : Container :=
  mkContainer (children c) p (didChange c) (didViewUpdate c) (updateFlags c)
              (sortDirty c) (sortChildren c) (layerGroup c).

Definition with_didChange (b : bool) (c : Container) : Container :=
  mkContainer (children c) (parent c) b (didViewUpdate c) (updateFlags c)
              (sortDirty c) (sortChildren c) (layerGroup c).

Definition with_didViewUpdate (b : bool) (c : Container) : Container :=
  mkContainer (children c) (parent c) (didChange c) b (updateFlags c)
              (sortDirty c) (sortChildren c) (layerGroup c).

Definition with_updateFlags (f : Z) (c : Container) : Container :=
  mkContainer (children c) (parent c) (didChange c) (didViewUpdate c) f
              (sortDirty c) (sortChildren c) (layerGroup c).

Definition with_sortDirty (b : bool) (c : Container) : Container :=
  mkContainer (children c) (parent c) (didChange c) (didViewUpdate c)
              (updateFlags c) b (sortChildren c) (layerGroup c).

(** The object store: every reference denotes a container. *)
Definition heap := node -> Container.

Definition upd (h : heap) (n : node) (c : Container) : heap :=
  fun m => if decide (m = n) then c else h m.

(** The four notifications of the mixin, with the arguments of [emit]. *)
Inductive event :=
  | childRemoved (child this : node) (i : Z)
  | removed (this : node)
  | childAdded (child this : node) (index : Z)
  | added (this : node).

(** What the mixin does to the outside: it emits an event on a target
    container, or it calls the layer group.  An emission records the store
    as it stands when [emit] is called, which is what a listener can read. *)
Inductive action :=
  | Emit (target : node) (e : event) (seen : heap)
  | LayerAddChild (g : layer) (child : node)
  | LayerRemoveChild (g : layer) (child : node).

Record world := mkWorld { store : heap; log : list action }.

(** The errors of the mixin, one constructor per [throw] statement. *)
Inductive exn :=
  | RangeError_removeChildren
  | Error_getChildAt (index : Z)
  | Error_setChildIndex (index len : Z)
  | Error_notAChild
  | Error_addChildAt (child : node) (index len : Z).

Inductive outcome (A : Type) :=
  | Return (a : A)
  | Throw (e : exn).
Arguments Return {A} a.
Arguments Throw {A} e.

(** ** The state-and-exception monad *)

Definition M (A : Type) : Type := world -> outcome A * world.

Definition ret {A} (a : A) : M A := fun w => (Return a, w).

Definition throw {A} (e : exn) : M A := fun w => (Throw e, w).

Definition bind {A B} (m : M A) (k : A -> M B) : M B :=
  fun w => match m w with
           | (Return a, w') => k a w'
           | (Throw e, w') => (Throw e, w')
           end.

Notation "'let!' x ':=' m 'in' k" := (bind m (fun x => k))
  (at level 10, x name, m at level 100, k at level 200).
Notation "m ';;;' k" := (bind m (fun _ => k))
  (at level 100, k at level 200, right associativity).

Definition read {A} (f : Container -> A) (n : node) : M A :=
  fun w => (Return (f (store w n)), w).

Definition write (f : Container -> Container) (n : node) : M unit :=
  fun w => (Return tt, mkWorld (upd (store w) n (f (store w n))) (log w)).

Definition emit (target : node) (e : event) : M unit :=
  fun w => (Return tt, mkWorld (store w) (log w ++ [Emit target e (store w)])).

Definition call (a : action) : M unit :=
  fun w => (Return tt, mkWorld (store w) (log w ++ [a])).

Definition when (b : bool) (m : M unit) : M unit := if b then m else ret tt.

(** ** JavaScript arrays *)

(** [arr.length] *)
Definition len (l : list node) : Z := Z.of_nat (length l).

(** [arr[i]]: [None] stands for [undefined]. *)
Definition item (l : list node) (i : Z) : option node :=
  if i <? 0 then None else l !! Z.to_nat i.

(** [arr.indexOf(x)]: the first position of [x], or [-1]. *)
Fixpoint indexOf (l : list node) (x : node) : Z :=
  match l with
  | [] => -1
  | y :: l' => if decide (y = x) then 0
               else let r := indexOf l' x in
                    if r =? -1 then -1 else 1 + r
  end.

(** [arr.push(x)] *)
Definition push (x : node) (l : list node) : list node := l ++ [x].

(** [arr.splice(start, deleteCount, ...items)]: a negative [start] counts
    from the end, and both [start] and [deleteCount] are clamped. *)
Definition splice (start deleteCount : Z) (items : list node)
                  (l : list node) : list node :=
  let s := if start <? 0 then Z.max (len l + start) 0 else Z.min start (len l) in
  let d := Z.min (Z.max deleteCount 0) (len l - s) in
  take (Z.to_nat s) l ++ items ++ drop (Z.to_nat (s + d)) l.

(** [arr[i] = x] for an index inside the array (every index the mixin
    assigns at comes out of [getChildIndex], so it is inside). *)
Definition assign (i : Z) (x : node) (l : list node) : list node :=
  <[Z.to_nat i := x]> l.

(** Modelled from the spec: [removeItems] of utils/data/removeItems, which is
    imported by the mixin and is not part of these sources.  Section 4.1 of
    the specification describes the call [removeItems(children, beginIndex,
    end)] as one bulk splice "removing exactly that index range from
    children", so the entries at positions [beginIndex, end) are dropped. *)
Definition removeItems (l : list node) (beginIndex end_ : Z) : list node :=
  take (Z.to_nat beginIndex) l ++ drop (Z.to_nat end_) l.

(** ** The mixin *)

(** Lines 36-49 of [removeChildren]: the loop
    [for (let i = end - 1; i >= beginIndex; i--)], run for the [n] indices
    that remain, [i] being the next one. *)
Fixpoint removeChildren_detach (this : node) (n : nat) (i : Z)
                               (removed : list node) : M (list node) :=
  match n with
  | O => ret removed
  | S n' =>
      let! cs := read children this in
      match item cs i with
      | None => removeChildren_detach this n' (i - 1) removed
      | Some child =>
          let! g := read layerGroup this in
          match g with
          | Some g => call (LayerRemoveChild g child)
          | None => ret tt
          end;;;
          write (with_parent None) child;;;
          removeChildren_detach this n' (i - 1) (push child removed)
      end
  end.

(** Lines 53-57 of [removeChildren]: the loop over [removed], from
    position [i] on. *)
Fixpoint removeChildren_notify (this : node) (rest : list node) (i : Z) : M unit :=
  match rest with
  | [] => ret tt
  | child :: rest' =>
      emit this (childRemoved child this i);;;
      emit child (removed this);;;
      removeChildren_notify this rest' (i + 1)
  end.

Definition removeChildren (this : node) (beginIndex endIndex : option Z)
  : M (list node) :=
  let beginIndex := default 0 beginIndex in
  let! cs := read children this in
  let end_ := default (len cs) endIndex in
  let range := end_ - beginIndex in
  if (0 <? range) && (range <=? end_) then
    let! removed := removeChildren_detach this (Z.to_nat range) (end_ - 1) [] in
    write (fun c => with_children (removeItems (children c) beginIndex end_) c) this;;;
    removeChildren_notify this removed 0;;;
    ret removed
  else
    let! cs := read children this in
    if (range =? 0) && (len cs =? 0) then ret []
    else throw RangeError_removeChildren.

Definition getChildAt (this : node) (index : Z) : M (option node) :=
  let! cs := read children this in
  if (index <? 0) || (len cs <=? index) then throw (Error_getChildAt index)
  else ret (item cs index).

Definition getChildIndex (this : node) (child : node) : M Z :=
  let! cs := read children this in
  let index := indexOf cs child in
  if index =? -1 then throw Error_notAChild else ret index.

(** Lines 168-192 of [addChildAt]: the insertion proper, reached when the
    child is not already in place. *)
Definition addChildAt_insert (this child : node) (index : Z) : M node :=
  let! cs := read children this in
  (if index =? len cs
   then write (fun c => with_children (push child (children c)) c) this
   else write (fun c => with_children (splice index 0 [child] (children c)) c) this);;;
  write (with_parent (Some this)) child;;;
  write (with_didChange true) child;;;
  write (with_didViewUpdate false) child;;;
  write (with_updateFlags 15) child;;;
  let! g := read layerGroup this in
  match g with
  | Some g => call (LayerAddChild g child)
  | None => ret tt
  end;;;
  let! s := read sortChildren this in
  when s (write (with_sortDirty true) this);;;
  emit this (childAdded child this index);;;
  emit child (added this);;;
  ret child.

Definition addChildAt (this child : node) (index : Z) : M node :=
  let! cs := read children this in
  if (index <? 0) || (len cs <? index)
  then throw (Error_addChildAt child index (len cs))
  else
    let! p := read parent child in
    match p with
    | Some p =>
        let! pcs := read children p in
        let currentIndex := indexOf pcs child in
        if bool_decide (p = this) && (currentIndex =? index) then ret child
        else
          when (negb (currentIndex =? -1))
               (write (fun c => with_children (splice currentIndex 1 [] (children c)) c) p);;;
          addChildAt_insert this child index
    | None => addChildAt_insert this child index
    end.

Definition setChildIndex (this child : node) (index : Z) : M unit :=
  let! cs := read children this in
  if (index <? 0) || (len cs <=? index)
  then throw (Error_setChildIndex index (len cs))
  else
    getChildIndex this child;;;
    addChildAt this child index;;;
    ret tt.

Definition swapChildren (this child child2 : node) : M unit :=
  if bool_decide (child = child2) then ret tt
  else
    let! index1 := getChildIndex this child in
    let! index2 := getChildIndex this child2 in
    write (fun c => with_children (assign index1 child2 (children c)) c) this;;;
    write (fun c => with_children (assign index2 child (children c)) c) this.

(** Modelled from the spec: [removeChild] of [Container], which the mixin
    calls and which is not part of these sources.  Section 6 of the
    specification: it "removes each listed child if currently a member,
    emitting removed/childRemoved per child", and "removing a non-member
    child is a no-op for that child, not an error"; it returns the child.
    The mixin only ever passes one child. *)
Definition removeChild (this : node) (child : option node) : M (option node) :=
  match child with
  | None => ret None
  | Some c =>
      let! cs := read children this in
      let index := indexOf cs c in
      if index =? -1 then ret child
      else
        write (fun x => with_children (splice index 1 [] (children x)) x) this;;;
        write (with_parent None) c;;;
        emit this (childRemoved c this index);;;
        emit c (removed this);;;
        ret child
  end.

Definition removeChildAt (this : node) (index : Z) : M (option node) :=
  let! child := getChildAt this index in
  removeChild this child.

Definition removeFromParent (this : node) : M unit :=
  let! p := read parent this in
  match p with
  | Some p => removeChild p (Some this);;; ret tt
  | None => ret tt
  end.

(** ** Observations on results *)

(** The notifications of a log, each with the container it is emitted on. *)
Definition emitted (l : list action) : list (node * event) :=
  omap (fun a => match a with
                 | Emit target e _ => Some (target, e)
                 | _ => None
                 end) l.

(** The notifications that the second loop of [removeChildren] sends for the
    list [rest], the first of them carrying position [i]; [h] is the store
    the listeners find. *)
Definition notifications (this : node) (h : heap) (rest : list node) (i : Z)
  : list action :=
  concat (imap (fun k child =>
                  [Emit this (childRemoved child this (i + Z.of_nat k)) h;
                   Emit child (removed this) h]) rest).

(** The calls to the layer group made while detaching the list [l]. *)
Definition layer_removals (g : option layer) (l : list node) : list action :=
  match g with
  | Some g => map (LayerRemoveChild g) l
  | None => []
  end.

(** What a listener is entitled to find in the store [h] when it receives a
    notification: the store is the final one of the operation, a removed child
    has no parent and is not among the children, an added child has its parent
    and is among the children. *)
Definition committed (h : heap) (a : action) : Prop :=
  match a with
  | Emit target e seen =>
      seen = h /\
      match e with
      | childRemoved child this _ =>
          parent (h child) = None /\ child ∉ children (h this)
      | removed this =>
          parent (h target) = None /\ target ∉ children (h this)
      | childAdded child this _ =>
          parent (h child) = Some this /\ child ∈ children (h this)
      | added this =>
          parent (h target) = Some this /\ target ∈ children (h this)
      end
  | _ => True
  end.

(** A run from the world [w] with the result [r] has only added to the log,
    and every notification it has added finds the final store committed. *)
Definition announces_committed {A} (w : world) (r : outcome A * world) : Prop :=
  exists new, log r.2 = log w ++ new /\ Forall (committed (store r.2)) new.

(** The store after the parents of the containers in [gone] are cleared. *)
Definition detached (gone : list node) (h : heap) : heap :=
  fun m => if bool_decide (m ∈ gone) then with_parent None (h m) else h m.

(** The call to the layer group made while attaching [child]. *)
Definition layer_addition (g : option layer) (child : node) : list action :=
  match g with
  | Some g => [LayerAddChild g child]
  | None => []
  end.

(** The store after lines 152-166 when they do not return: a child that is
    found among the children of its parent is cut out of them. *)
Definition unlinked (child : node) (h : heap) : heap :=
  match parent (h child) with
  | Some p =>
      let currentIndex := indexOf (children (h p)) child in
      if currentIndex =? -1 then h
      else upd h p (with_children (splice currentIndex 1 [] (children (h p))) (h p))
  | None => h
  end.

(** The child is already a child of [this], at [index]. *)
Definition in_place (this child : node) (index : Z) (h : heap) : Prop :=
  parent (h child) = Some this /\ indexOf (children (h this)) child = index.

(** The operations of the mixin as requests, to state properties of all of
    them at once. *)
Inductive request :=
  | RemoveChildren (beginIndex endIndex : option Z)
  | RemoveChildAt (index : Z)
  | GetChildAt (index : Z)
  | GetChildIndex (child : node)
  | SetChildIndex (child : node) (index : Z)
  | AddChildAt (child : node) (index : Z)
  | SwapChildren (child child2 : node).

(** Runs a request on [this] and forgets the value it returns. *)
Definition perform (this : node) (r : request) : M unit :=
  match r with
  | RemoveChildren b e => removeChildren this b e;;; ret tt
  | RemoveChildAt i => removeChildAt this i;;; ret tt
  | GetChildAt i => getChildAt this i;;; ret tt
  | GetChildIndex c => getChildIndex this c;;; ret tt
  | SetChildIndex c i => setChildIndex this c i
  | AddChildAt c i => addChildAt this c i;;; ret tt
  | SwapChildren c c2 => swapChildren this c c2
  end.

(** Stores used to run the operations on concrete trees. *)
Definition blank : Container :=
  mkContainer [] None false false 0 false false None.

(** [link p cs h]: the store [h] with [cs] made the children of [p]. *)
Definition link (p : node) (cs : list node) (h : heap) : heap :=
  fun n => if decide (n = p) then with_children cs (h n)
           else if bool_decide (n ∈ cs) then with_parent (Some p) (h n)
           else h n.

(** A parent [0] with the children [1], [2] and [3]. *)
Definition family : heap := link 0%nat [1; 2; 3]%nat (fun _ => blank).

(** A parent [0] with the only child [1]. *)
Definition single : heap := link 0%nat [1%nat] (fun _ => blank).

(** A parent [0] with the children [1] and [2], and a parent [4] with the
    child [5]. *)
Definition two_families : heap :=
  link 0%nat [1; 2]%nat (link 4%nat [5%nat] (fun _ => blank)).

(** The links of a store agree: a container is among the children of [p]
    exactly when its parent is [p], and no array of children holds a
    container twice. *)
Definition linked (h : heap) : Prop :=
  (forall p c, c ∈ children (h p) <-> parent (h c) = Some p)
  /\ (forall p, NoDup (children (h p))).

(** ** Arrays *)

Lemma len_nonneg l : 0 <= len l.
Proof. unfold len. lia. Qed.

Lemma indexOf_bounds l x : -1 <= indexOf l x < len l.
Proof.
  induction l as [|y l IH]; simpl; [unfold len; simpl; lia|].
  unfold len in *. simpl length. case_decide; [lia|].
  destruct (Z.eqb_spec (indexOf l x) (-1)); lia.
Qed.

Lemma indexOf_absent l x : indexOf l x = -1 <-> x ∉ l.
Proof.
  induction l as [|y l IH]; simpl.
  - split; [intros _; apply not_elem_of_nil | done].
  - pose proof (indexOf_bounds l x) as Hb.
    case_decide as Hy.
    + subst. split; [lia | intros []; left].
    + rewrite not_elem_of_cons.
      destruct (Z.eqb_spec (indexOf l x) (-1)) as [E|E].
      * split; [intros _; split; [congruence | by apply IH] | done].
      * split; [lia | intros [_ ?]; exfalso; apply E; by apply IH].
Qed.

Lemma indexOf_lookup l x :
  indexOf l x <> -1 -> l !! Z.to_nat (indexOf l x) = Some x.
Proof.
  induction l as [|y l IH]; simpl; [done|].
  pose proof (indexOf_bounds l x) as Hb.
  case_decide as Hy; [intros _; by subst|].
  destruct (Z.eqb_spec (indexOf l x) (-1)) as [E|E]; [done|].
  intros _. replace (Z.to_nat (1 + indexOf l x)) with (S (Z.to_nat (indexOf l x))) by lia.
  simpl. by apply IH.
Qed.

Lemma indexOf_NoDup l x i :
  NoDup l -> l !! i = Some x -> indexOf l x = Z.of_nat i.
Proof.
  intros Hnd Hi.
  assert (x ∈ l) as Hin by (by eapply list_elem_of_lookup_2).
  assert (indexOf l x <> -1) as Hne by (by rewrite indexOf_absent; intros []).
  pose proof (indexOf_bounds l x) as Hb.
  pose proof (indexOf_lookup l x Hne) as Hj.
  pose proof (NoDup_lookup l _ _ x Hnd Hi Hj). lia.
Qed.

Lemma item_Some l i x :
  item l i = Some x <-> 0 <= i /\ l !! Z.to_nat i = Some x.
Proof.
  unfold item. destruct (Z.ltb_spec i 0) as [Hi|Hi].
  - split; [done | intros [? _]; lia].
  - split; [intros ?; split; [lia | done] | by intros [_ ?]].
Qed.

(** Inserting one element with [splice] at a position inside the array. *)
Lemma splice_insert l i x :
  0 <= i <= len l ->
  splice i 0 [x] l = take (Z.to_nat i) l ++ x :: drop (Z.to_nat i) l.
Proof.
  intros Hi. unfold splice. pose proof (len_nonneg l).
  destruct (Z.ltb_spec i 0); [lia|].
  rewrite Z.min_l by lia. rewrite Z.max_r by lia. rewrite Z.min_l by lia.
  by rewrite Z.add_0_r.
Qed.

(** Inserting past the end with [splice] appends. *)
Lemma splice_insert_past l i x :
  len l <= i -> splice i 0 [x] l = l ++ [x].
Proof.
  intros Hi. unfold splice. pose proof (len_nonneg l).
  destruct (Z.ltb_spec i 0); [lia|].
  rewrite Z.min_r by lia. rewrite Z.max_r by lia. rewrite Z.min_l by lia.
  rewrite Z.add_0_r. unfold len. rewrite Nat2Z.id.
  by rewrite firstn_all, drop_all.
Qed.

(** Deleting one element with [splice] at a position inside the array. *)
Lemma splice_delete l i :
  0 <= i < len l ->
  splice i 1 [] l = take (Z.to_nat i) l ++ drop (S (Z.to_nat i)) l.
Proof.
  intros Hi. unfold splice. pose proof (len_nonneg l).
  destruct (Z.ltb_spec i 0); [lia|].
  rewrite Z.min_l by lia. rewrite Z.max_l by lia. rewrite Z.min_l by lia.
  simpl. f_equal. f_equal. lia.
Qed.

(** ** The store *)

Lemma upd_same h n c : upd h n c n = c.
Proof. unfold upd. by case_decide. Qed.

Lemma upd_other h n c m : m <> n -> upd h n c m = h m.
Proof. unfold upd. by case_decide. Qed.

(** Clearing or setting a parent leaves every array of children and every
    layer group as it is, also when the two containers are the same one. *)
Lemma children_upd_parent h c p n :
  children (upd h c (with_parent p (h c)) n) = children (h n).
Proof. unfold upd. case_decide; by subst. Qed.

Lemma layerGroup_upd_parent h c p n :
  layerGroup (upd h c (with_parent p (h c)) n) = layerGroup (h n).
Proof. unfold upd. case_decide; by subst. Qed.

(** ** The two loops of [removeChildren] *)

Lemma take_S_lookup (l : list node) n :
  take (S n) l = take n l ++ option_list (l !! n).
Proof.
  destruct (l !! n) as [x|] eqn:E; simpl.
  - by apply take_S_r.
  - apply lookup_ge_None in E. rewrite !take_ge by lia. by rewrite app_nil_r.
Qed.

(** The first loop visits the positions [b + n - 1] down to [b]: it collects
    the children found there, highest position first, clears their parents,
    tells the layer group, and changes nothing else. *)
Lemma removeChildren_detach_run this n : forall (b : nat) removed w,
  exists h',
    removeChildren_detach this n (Z.of_nat b + Z.of_nat n - 1) removed w
    = (Return (removed ++ reverse (take n (drop b (children (store w this))))),
       mkWorld h' (log w ++ layer_removals (layerGroup (store w this))
                     (reverse (take n (drop b (children (store w this)))))))
    /\ forall m, h' m = if bool_decide (m ∈ take n (drop b (children (store w this))))
                        then with_parent None (store w m) else store w m.
Proof.
  induction n as [|n IH]; intros b removed w.
  - exists (store w). cbn [removeChildren_detach]. unfold ret. split.
    + destruct w as [h l]; cbn [store log]. rewrite take_0.
      change (reverse []) with (@nil node).
      destruct (layerGroup (h this)); simpl; by rewrite !app_nil_r.
    + intros m. rewrite take_0.
      rewrite bool_decide_eq_false_2; [done | apply not_elem_of_nil].
  - cbn [removeChildren_detach]. unfold bind at 1. unfold read at 1.
    cbn [store]. set (cs := children (store w this)).
    replace (Z.of_nat b + Z.of_nat (S n) - 1) with (Z.of_nat (b + n)) by lia.
    assert (item cs (Z.of_nat (b + n)) = drop b cs !! n) as ->.
    { unfold item. destruct (Z.ltb_spec (Z.of_nat (b + n)) 0); [lia|].
      by rewrite Nat2Z.id, lookup_drop. }
    rewrite take_S_lookup.
    replace (Z.of_nat (b + n) - 1) with (Z.of_nat b + Z.of_nat n - 1) by lia.
    destruct (drop b cs !! n) as [child|] eqn:E; simpl option_list.
    + set (w1 := mkWorld (upd (store w) child (with_parent None (store w child)))
                         (log w ++ layer_removals (layerGroup (store w this)) [child])).
      destruct (IH b (push child removed) w1) as (h' & Hrun & Hh').
      assert (children (store w1 this) = cs) as Hcs
        by apply children_upd_parent.
      assert (layerGroup (store w1 this) = layerGroup (store w this)) as Hg
        by apply layerGroup_upd_parent.
      rewrite Hcs, Hg in Hrun. rewrite Hcs in Hh'.
      exists h'. split.
      * clear Hcs Hg Hh'. subst w1. unfold bind, read, call, write, ret.
        cbn [store log]. unfold push in *.
        destruct (layerGroup (store w this)) as [g|];
          cbn [store log layer_removals map] in *;
          rewrite ?app_nil_r in Hrun; rewrite Hrun, reverse_snoc;
          rewrite <- !app_assoc; [done | by rewrite app_nil_r].
      * intros m. rewrite Hh'. unfold w1; cbn [store]. unfold upd.
        destruct (decide (m = child)) as [->|Hm].
        -- rewrite (bool_decide_eq_true_2 (child ∈ _ ++ _));
             [by destruct (bool_decide _) | apply elem_of_app; right; left].
        -- destruct (bool_decide (m ∈ take n (drop b cs))) eqn:Em.
           ++ apply bool_decide_eq_true in Em.
              rewrite bool_decide_eq_true_2; [done | apply elem_of_app; by left].
           ++ apply bool_decide_eq_false in Em.
              rewrite bool_decide_eq_false_2; [done|].
              rewrite elem_of_app, list_elem_of_singleton. tauto.
    + rewrite app_nil_r. apply IH.
Qed.

Lemma notifications_cons this h child rest i :
  notifications this h (child :: rest) i
  = Emit this (childRemoved child this i) h
      :: Emit child (removed this) h :: notifications this h rest (i + 1).
Proof.
  unfold notifications. rewrite imap_cons. simpl. rewrite Z.add_0_r.
  do 3 f_equal. apply imap_ext. intros k x _. simpl. do 3 f_equal. lia.
Qed.

(** The second loop sends, for each collected child in turn, [childRemoved]
    on the parent with the child's position in the list and then [removed] on
    the child; the store is not touched. *)
Lemma removeChildren_notify_run this rest : forall i w,
  removeChildren_notify this rest i w
  = (Return tt, mkWorld (store w) (log w ++ notifications this (store w) rest i)).
Proof.
  induction rest as [|child rest IH]; intros i w.
  - unfold notifications. simpl. unfold ret. rewrite app_nil_r. by destruct w.
  - cbn [removeChildren_notify]. unfold bind, emit. cbn [store log].
    rewrite IH. cbn [store log]. rewrite notifications_cons.
    by rewrite <- !app_assoc.
Qed.

(** ** [removeChildren] *)

(** The range test of line 34 holds when the range starts at a position that
    is not negative and is not empty. *)
Lemma range_test b e :
  (0 <? e - b) && (e - b <=? e) = true <-> 0 <= b /\ b < e.
Proof. rewrite andb_true_iff, Z.ltb_lt, Z.leb_le. lia. Qed.

(** A call with an acceptable range: what it returns, what it logs and the
    store it leaves. *)
Lemma removeChildren_accepted this beginIndex endIndex w :
  let b := default 0 beginIndex in
  let cs := children (store w this) in
  let e := default (len cs) endIndex in
  let gone := take (Z.to_nat (e - b)) (drop (Z.to_nat b) cs) in
  0 <= b -> b < e ->
  exists h',
    removeChildren this beginIndex endIndex w
    = (Return (reverse gone),
       mkWorld h' (log w ++ layer_removals (layerGroup (store w this)) (reverse gone)
                         ++ notifications this h' (reverse gone) 0))
    /\ (forall m, m <> this -> h' m = detached gone (store w) m)
    /\ h' this = with_children (removeItems cs b e) (detached gone (store w) this).
Proof.
  intros b cs e gone Hb Hbe.
  destruct (removeChildren_detach_run this (Z.to_nat (e - b)) (Z.to_nat b) [] w)
    as (h1 & Hrun & Hh1).
  replace (Z.of_nat (Z.to_nat b) + Z.of_nat (Z.to_nat (e - b)) - 1)
    with (e - 1) in Hrun by lia.
  fold cs in Hrun, Hh1. fold gone in Hrun, Hh1. rewrite app_nil_l in Hrun.
  exists (upd h1 this (with_children (removeItems (children (h1 this)) b e) (h1 this))).
  assert (children (h1 this) = cs) as Hcs.
  { rewrite Hh1. by destruct (bool_decide _). }
  split; [|split].
  - unfold removeChildren. unfold bind at 1. unfold read at 1.
    fold cs. fold b. fold e.
    rewrite (proj2 (range_test b e)) by done.
    unfold bind at 1. rewrite Hrun.
    unfold bind, write, ret. cbn [store log].
    rewrite removeChildren_notify_run. cbn [store log].
    by rewrite <- app_assoc.
  - intros m Hm. rewrite upd_other by done. apply Hh1.
  - rewrite upd_same, Hcs. f_equal. apply Hh1.
Qed.

(** A call on a container without children, with an empty range. *)
Lemma removeChildren_nothing this beginIndex endIndex w :
  let b := default 0 beginIndex in
  let e := default (len (children (store w this))) endIndex in
  e = b -> children (store w this) = [] ->
  removeChildren this beginIndex endIndex w = (Return [], w).
Proof.
  intros b e He Hcs. unfold removeChildren, bind, read, ret.
  fold b. fold e. replace (e - b) with 0 by lia. cbn. by rewrite Hcs.
Qed.

(** Every other call is refused, with the store and the log as they were. *)
Lemma removeChildren_refused this beginIndex endIndex w :
  let b := default 0 beginIndex in
  let cs := children (store w this) in
  let e := default (len cs) endIndex in
  ~ (0 <= b /\ b < e) -> ~ (e = b /\ cs = []) ->
  removeChildren this beginIndex endIndex w = (Throw RangeError_removeChildren, w).
Proof.
  intros b cs e Hrange Hempty. unfold removeChildren, bind, read, ret, throw.
  fold cs. fold b. fold e.
  destruct ((0 <? e - b) && (e - b <=? e)) eqn:Et.
  { apply range_test in Et. tauto. }
  cbn beta. fold cs.
  destruct ((e - b =? 0) && (len cs =? 0)) eqn:Ee; [|done].
  apply andb_true_iff in Ee as [E1 E2].
  apply Z.eqb_eq in E1, E2. exfalso. apply Hempty. split; [lia|].
  unfold len in E2. destruct cs; [done | simpl in E2; lia].
Qed.

(** ** [addChildAt] *)

(** Lines 168-175 put the child at [index], or at the end when [index] is
    the length or more. *)
Lemma insertion_place index child cs :
  0 <= index ->
  (if index =? len cs then push child cs else splice index 0 [child] cs)
  = take (Z.to_nat index) cs ++ child :: drop (Z.to_nat index) cs.
Proof.
  intros Hi. destruct (Z.eqb_spec index (len cs)) as [->|Hne].
  - unfold push, len. by rewrite Nat2Z.id, firstn_all, drop_all.
  - destruct (Z.le_gt_cases index (len cs)).
    + by apply splice_insert.
    + rewrite splice_insert_past by lia. unfold len in *.
      by rewrite take_ge, drop_ge by lia.
Qed.

(** The insertion proper: [child] enters the children of [this] at [index]
    (or at the end when [index] is the length or more), gets [this] as its
    parent and its flags set; the layer group is told, then [childAdded] and
    [added] are sent, both on the final store. *)
Lemma addChildAt_insert_run this child index w :
  0 <= index ->
  let cs := children (store w this) in
  exists h',
    addChildAt_insert this child index w
    = (Return child,
       mkWorld h' (log w ++ layer_addition (layerGroup (store w this)) child
                         ++ [Emit this (childAdded child this index) h';
                             Emit child (added this) h']))
    /\ children (h' this)
       = take (Z.to_nat index) cs ++ child :: drop (Z.to_nat index) cs
    /\ parent (h' child) = Some this
    /\ didChange (h' child) = true
    /\ didViewUpdate (h' child) = false
    /\ updateFlags (h' child) = 15
    /\ (forall m, m <> this -> children (h' m) = children (store w m))
    /\ (forall m, m <> child -> parent (h' m) = parent (store w m))
    /\ (forall m, m <> this -> m <> child -> h' m = store w m).
Proof.
  intros Hi cs.
  pose proof (insertion_place index child cs Hi) as Hplace.
  unfold addChildAt_insert, bind, read, write, call, emit, when, ret.
  cbn [store log]. fold cs.
  destruct (decide (child = this)) as [->|Hne];
    destruct (index =? len cs) eqn:Ei; cbn [store log];
    rewrite ?upd_same; repeat (rewrite (upd_other _ child _ this) by done);
    rewrite ?upd_same;
    cbn [layerGroup sortChildren with_children with_parent with_didChange
         with_didViewUpdate with_updateFlags];
    destruct (layerGroup (store w this)) as [g|]; cbn [store log layer_addition];
    rewrite ?upd_same; repeat (rewrite (upd_other _ child _ this) by done);
    rewrite ?upd_same;
    cbn [layerGroup sortChildren with_children with_parent with_didChange
         with_didViewUpdate with_updateFlags];
    destruct (sortChildren (store w this)); cbn [store log];
    (eexists; split; [rewrite <- ?app_assoc; reflexivity|]);
    fold cs; rewrite <- Hplace;
    repeat split; intros; unfold upd; repeat case_decide; try done;
    by subst.
Qed.

(** An index outside [0, length] is refused before anything is done. *)
Lemma addChildAt_refused this child index w :
  ~ (0 <= index <= len (children (store w this))) ->
  addChildAt this child index w
  = (Throw (Error_addChildAt child index (len (children (store w this)))), w).
Proof.
  intros Hi. unfold addChildAt, bind, read, throw. cbn [store].
  destruct (Z.ltb_spec index 0); [done|].
  destruct (Z.ltb_spec (len (children (store w this))) index); [done | lia].
Qed.

(** A child that is in place is returned at once. *)
Lemma addChildAt_kept this child index w :
  0 <= index <= len (children (store w this)) ->
  in_place this child index (store w) ->
  addChildAt this child index w = (Return child, w).
Proof.
  intros Hi [Hp Hc]. unfold addChildAt, bind, read, ret. cbn [store].
  destruct (Z.ltb_spec index 0); [lia|].
  destruct (Z.ltb_spec (len (children (store w this))) index); [lia|].
  cbn [orb]. rewrite Hp. rewrite bool_decide_eq_true_2 by done.
  by rewrite Hc, Z.eqb_refl.
Qed.

(** Every other call cuts the child out of its parent's children, if it is
    there, and goes on to the insertion. *)
Lemma addChildAt_moved this child index w :
  0 <= index <= len (children (store w this)) ->
  ~ in_place this child index (store w) ->
  addChildAt this child index w
  = addChildAt_insert this child index (mkWorld (unlinked child (store w)) (log w)).
Proof.
  intros Hi Hplace. unfold addChildAt, unlinked, in_place in *.
  unfold bind at 1. unfold read at 1.
  destruct (Z.ltb_spec index 0); [lia|].
  destruct (Z.ltb_spec (len (children (store w this))) index); [lia|].
  cbn [orb]. unfold bind at 1. unfold read at 1.
  destruct w as [h l]. cbn [store log] in *.
  destruct (parent (h child)) as [p|]; [|done].
  unfold bind at 1. unfold read at 1. cbn [store].
  destruct (bool_decide (p = this) && (indexOf (children (h p)) child =? index)) eqn:E.
  { apply andb_true_iff in E as [E1 E2]. apply bool_decide_eq_true in E1.
    apply Z.eqb_eq in E2. subst p. tauto. }
  unfold bind, when, write, ret. cbn [store log].
  by destruct (indexOf (children (h p)) child =? -1).
Qed.

(** ** The lookups *)

Lemma getChildAt_inside this index w :
  0 <= index < len (children (store w this)) ->
  getChildAt this index w = (Return (item (children (store w this)) index), w).
Proof.
  intros Hi. unfold getChildAt, bind, read, ret. cbn [store].
  destruct (Z.ltb_spec index 0); [lia|].
  destruct (Z.leb_spec (len (children (store w this))) index); [lia | done].
Qed.

Lemma getChildAt_outside this index w :
  ~ (0 <= index < len (children (store w this))) ->
  getChildAt this index w = (Throw (Error_getChildAt index), w).
Proof.
  intros Hi. unfold getChildAt, bind, read, throw. cbn [store].
  destruct (Z.ltb_spec index 0); [done|].
  destruct (Z.leb_spec (len (children (store w this))) index); [done | lia].
Qed.

Lemma getChildIndex_member this child w :
  child ∈ children (store w this) ->
  getChildIndex this child w = (Return (indexOf (children (store w this)) child), w).
Proof.
  intros Hin. unfold getChildIndex, bind, read, ret. cbn [store].
  destruct (Z.eqb_spec (indexOf (children (store w this)) child) (-1)) as [E|E];
    [|done].
  by apply indexOf_absent in E.
Qed.

Lemma getChildIndex_stranger this child w :
  child ∉ children (store w this) ->
  getChildIndex this child w = (Throw Error_notAChild, w).
Proof.
  intros Hin. unfold getChildIndex, bind, read, throw. cbn [store].
  apply indexOf_absent in Hin. by rewrite Hin.
Qed.

(** ** [swapChildren] *)

Lemma swapChildren_same this child w :
  swapChildren this child child w = (Return tt, w).
Proof. unfold swapChildren. by rewrite bool_decide_eq_true_2. Qed.

Lemma swapChildren_run this child child2 w :
  child <> child2 ->
  child ∈ children (store w this) -> child2 ∈ children (store w this) ->
  let cs := children (store w this) in
  exists h',
    swapChildren this child child2 w = (Return tt, mkWorld h' (log w))
    /\ h' this = with_children
                   (assign (indexOf cs child2) child
                      (assign (indexOf cs child) child2 cs)) (store w this)
    /\ forall m, m <> this -> h' m = store w m.
Proof.
  intros Hne H1 H2 cs. unfold swapChildren.
  rewrite bool_decide_eq_false_2 by done.
  unfold bind at 1. rewrite getChildIndex_member by done.
  unfold bind at 1. rewrite getChildIndex_member by done.
  unfold bind, write. cbn [store log]. fold cs.
  eexists. split; [reflexivity|]. split.
  - by rewrite !upd_same.
  - intros m Hm. by rewrite !upd_other.
Qed.

(** ** [setChildIndex] *)

Lemma setChildIndex_outside this child index w :
  ~ (0 <= index < len (children (store w this))) ->
  setChildIndex this child index w
  = (Throw (Error_setChildIndex index (len (children (store w this)))), w).
Proof.
  intros Hi. unfold setChildIndex, bind, read, throw. cbn [store].
  destruct (Z.ltb_spec index 0); [done|].
  destruct (Z.leb_spec (len (children (store w this))) index); [done | lia].
Qed.

Lemma setChildIndex_stranger this child index w :
  0 <= index < len (children (store w this)) ->
  child ∉ children (store w this) ->
  setChildIndex this child index w = (Throw Error_notAChild, w).
Proof.
  intros Hi Hin. unfold setChildIndex. unfold bind at 1. unfold read at 1.
  destruct (Z.ltb_spec index 0); [lia|].
  destruct (Z.leb_spec (len (children (store w this))) index); [lia|].
  cbn [orb]. unfold bind at 1. by rewrite getChildIndex_stranger.
Qed.

Lemma setChildIndex_member this child index w :
  0 <= index < len (children (store w this)) ->
  child ∈ children (store w this) ->
  setChildIndex this child index w
  = (addChildAt this child index;;; ret tt) w.
Proof.
  intros Hi Hin. unfold setChildIndex. unfold bind at 1. unfold read at 1.
  destruct (Z.ltb_spec index 0); [lia|].
  destruct (Z.leb_spec (len (children (store w this))) index); [lia|].
  cbn [orb]. unfold bind at 1. by rewrite getChildIndex_member.
Qed.

(** ** [removeChild] *)

Lemma removeChild_returns this child w :
  exists w', removeChild this child w = (Return child, w').
Proof.
  unfold removeChild. destruct child as [c|]; [|by eexists].
  unfold bind, read, write, emit, ret. cbn [store log].
  destruct (indexOf (children (store w this)) c =? -1); by eexists.
Qed.

(** ** Calls that fail *)

Lemma forget_throws {A} (m : M A) w e w' :
  (m;;; ret tt) w = (Throw e, w') -> m w = (Throw e, w').
Proof. unfold bind, ret. destruct (m w) as [[a|x] w1]; congruence. Qed.

Lemma removeChildren_throws this beginIndex endIndex w e w' :
  removeChildren this beginIndex endIndex w = (Throw e, w') -> w' = w.
Proof.
  set (b := default 0 beginIndex).
  set (cs := children (store w this)).
  set (en := default (len cs) endIndex).
  destruct (decide (0 <= b /\ b < en)) as [[Hb Hbe]|Hr].
  { destruct (removeChildren_accepted this beginIndex endIndex w Hb Hbe)
      as (h' & -> & _). congruence. }
  destruct (decide (en = b /\ cs = [])) as [[He Hcs]|Hn].
  { rewrite (removeChildren_nothing this beginIndex endIndex w He Hcs). congruence. }
  rewrite (removeChildren_refused this beginIndex endIndex w Hr Hn). congruence.
Qed.

Lemma addChildAt_throws this child index w e w' :
  addChildAt this child index w = (Throw e, w') -> w' = w.
Proof.
  destruct (decide (0 <= index <= len (children (store w this)))) as [Hi|Hi].
  - destruct (decide (parent (store w child) = Some this
                      /\ indexOf (children (store w this)) child = index)) as [Hp|Hp].
    + rewrite (addChildAt_kept this child index w Hi Hp). congruence.
    + rewrite (addChildAt_moved this child index w Hi Hp).
      destruct (addChildAt_insert_run this child index
                  (mkWorld (unlinked child (store w)) (log w)))
        as (h' & -> & _); [lia | congruence].
  - rewrite (addChildAt_refused this child index w Hi). congruence.
Qed.

Lemma setChildIndex_throws this child index w e w' :
  setChildIndex this child index w = (Throw e, w') -> w' = w.
Proof.
  destruct (decide (0 <= index < len (children (store w this)))) as [Hi|Hi].
  - destruct (decide (child ∈ children (store w this))) as [Hin|Hin].
    + rewrite (setChildIndex_member this child index w Hi Hin).
      intros H. apply forget_throws in H. by eapply addChildAt_throws.
    + rewrite (setChildIndex_stranger this child index w Hi Hin). congruence.
  - rewrite (setChildIndex_outside this child index w Hi). congruence.
Qed.

Lemma swapChildren_throws this child child2 w e w' :
  swapChildren this child child2 w = (Throw e, w') -> w' = w.
Proof.
  destruct (decide (child = child2)) as [->|Hne].
  { rewrite swapChildren_same. congruence. }
  destruct (decide (child ∈ children (store w this))) as [H1|H1].
  - destruct (decide (child2 ∈ children (store w this))) as [H2|H2].
    + destruct (swapChildren_run this child child2 w Hne H1 H2) as (h' & -> & _).
      congruence.
    + unfold swapChildren. rewrite bool_decide_eq_false_2 by done.
      unfold bind at 1. rewrite getChildIndex_member by done.
      unfold bind at 1. rewrite getChildIndex_stranger by done. congruence.
  - unfold swapChildren. rewrite bool_decide_eq_false_2 by done.
    unfold bind at 1. rewrite getChildIndex_stranger by done. congruence.
Qed.

Lemma getChildAt_throws this index w e w' :
  getChildAt this index w = (Throw e, w') -> w' = w.
Proof.
  destruct (decide (0 <= index < len (children (store w this)))) as [Hi|Hi].
  - rewrite getChildAt_inside by done. congruence.
  - rewrite getChildAt_outside by done. congruence.
Qed.

Lemma getChildIndex_throws this child w e w' :
  getChildIndex this child w = (Throw e, w') -> w' = w.
Proof.
  destruct (decide (child ∈ children (store w this))) as [Hin|Hin].
  - rewrite getChildIndex_member by done. congruence.
  - rewrite getChildIndex_stranger by done. congruence.
Qed.

Lemma removeChildAt_throws this index w e w' :
  removeChildAt this index w = (Throw e, w') -> w' = w.
Proof.
  unfold removeChildAt, bind.
  destruct (getChildAt this index w) as [[child|x] w1] eqn:E.
  - destruct (removeChild_returns this child w1) as (w2 & ->). congruence.
  - intros [= <- <-]. by eapply getChildAt_throws.
Qed.

(** * The properties of the specification *)

(** ** Swapping *)

(** C10: [swapChildren(x, x)] returns without an error and leaves the store
    and the log as they are, for every container [x], a child of [this] or
    not: the test for identical arguments comes before the membership test. *)
Theorem swapChildren_identical_never_fails this x w :
  swapChildren this x x w = (Return tt, w).
Proof. apply swapChildren_same. Qed.

(** C8: for two distinct children [a] and [b] of [this], [swapChildren]
    puts [b] in the slot of [a] and [a] in the slot of [b] and leaves every
    other slot, the length, every other field of [this], every other
    container and the log as they are: no parent, no flag, no call to the
    layer group, no notification.  With twice the same child it changes
    nothing at all. *)
Theorem swapChildren_exchanges_two_slots this a b w :
  a <> b -> a ∈ children (store w this) -> b ∈ children (store w this) ->
  let cs := children (store w this) in
  let i := Z.to_nat (indexOf cs a) in
  let j := Z.to_nat (indexOf cs b) in
  exists cs' h',
    swapChildren this a b w = (Return tt, mkWorld h' (log w))
    /\ h' this = with_children cs' (store w this)
    /\ (forall m, m <> this -> h' m = store w m)
    /\ cs !! i = Some a /\ cs !! j = Some b
    /\ cs' !! i = Some b /\ cs' !! j = Some a
    /\ (forall k, k <> i -> k <> j -> cs' !! k = cs !! k)
    /\ length cs' = length cs
    /\ swapChildren this a a w = (Return tt, w).
Proof.
  intros Hne Ha Hb cs i j.
  destruct (swapChildren_run this a b w Hne Ha Hb) as (h' & Hrun & Hthis & Hrest).
  fold cs in Hthis.
  assert (cs !! i = Some a) as Hi
    by (apply indexOf_lookup; by rewrite indexOf_absent; intros []).
  assert (cs !! j = Some b) as Hj
    by (apply indexOf_lookup; by rewrite indexOf_absent; intros []).
  assert (i <> j) as Hij by (intros E; rewrite E in Hi; congruence).
  pose proof (lookup_lt_Some _ _ _ Hi) as Hli.
  pose proof (lookup_lt_Some _ _ _ Hj) as Hlj.
  exists (assign (indexOf cs b) a (assign (indexOf cs a) b cs)), h'.
  unfold assign. fold i j.
  repeat split; try done.
  - rewrite list_lookup_insert_ne by done. by apply list_lookup_insert_eq.
  - apply list_lookup_insert_eq. by rewrite length_insert.
  - intros k Hki Hkj. by rewrite !list_lookup_insert_ne.
  - by rewrite !length_insert.
  - apply swapChildren_same.
Qed.

Lemma swapChildren_exchanges_two_slots_witness :
  exists cs' h',
    swapChildren 0%nat 1%nat 3%nat (mkWorld family [])
    = (Return tt, mkWorld h' [])
    /\ h' 0%nat = with_children cs' (family 0%nat)
    /\ cs' = [3; 2; 1]%nat.
Proof.
  destruct (swapChildren_exchanges_two_slots 0%nat 1%nat 3%nat (mkWorld family []))
    as (cs' & h' & Hrun & Hthis & _).
  - discriminate.
  - compute_done.
  - compute_done.
  - exists (children (h' 0%nat)), h'. split; [exact Hrun|]. split.
    + rewrite Hthis. reflexivity.
    + vm_compute in Hrun. injection Hrun as <-. reflexivity.
Defined.

(** ** Insertion *)

(** C6: when [c] has [this] as its parent and already is at [index] among
    its children (which hold no container twice), [addChildAt(c, index)]
    returns [c] and leaves the whole store, so the children of [this] and the
    flags of [c], and the log as they are: nothing is emitted. *)
Theorem addChildAt_in_place_is_noop this c index w :
  parent (store w c) = Some this ->
  item (children (store w this)) index = Some c ->
  NoDup (children (store w this)) ->
  addChildAt this c index w = (Return c, w).
Proof.
  intros Hp Hc Hnd. apply item_Some in Hc as [Hi Hc].
  pose proof (lookup_lt_Some _ _ _ Hc) as Hlt.
  apply addChildAt_kept.
  - unfold len. lia.
  - split; [done|]. rewrite (indexOf_NoDup _ _ _ Hnd Hc). lia.
Qed.

Lemma addChildAt_in_place_is_noop_witness :
  addChildAt 0%nat 2%nat 1 (mkWorld family []) = (Return 2%nat, mkWorld family []).
Proof.
  apply addChildAt_in_place_is_noop.
  - reflexivity.
  - reflexivity.
  - compute_done.
Defined.

(** C7: when [c] has a parent other than [this] and [index] is accepted,
    [addChildAt(c, index)] succeeds and what it adds to the log holds exactly
    two notifications, [childAdded] on [this] and then [added] on [c]:
    cutting [c] out of its former parent sends neither [removed] nor
    [childRemoved]. *)
Theorem addChildAt_reparenting_notifies_added_only this c index q w :
  parent (store w c) = Some q -> q <> this ->
  0 <= index <= len (children (store w this)) ->
  exists w' new,
    addChildAt this c index w = (Return c, w')
    /\ log w' = log w ++ new
    /\ emitted new = [(this, childAdded c this index); (c, added this)].
Proof.
  intros Hp Hq Hi.
  assert (~ in_place this c index (store w)) as Hplace
    by (intros [Hp' _]; congruence).
  rewrite (addChildAt_moved this c index w Hi Hplace).
  destruct (addChildAt_insert_run this c index
              (mkWorld (unlinked c (store w)) (log w)))
    as (h' & -> & _); [lia|].
  eexists. eexists. split; [reflexivity|]. cbn [store log].
  split; [reflexivity|].
  by destruct (layerGroup (unlinked c (store w) this)).
Qed.

Lemma addChildAt_reparenting_notifies_added_only_witness :
  exists w' new,
    addChildAt 0%nat 5%nat 1 (mkWorld two_families []) = (Return 5%nat, w')
    /\ log w' = [] ++ new
    /\ emitted new = [(0%nat, childAdded 5%nat 0%nat 1); (5%nat, added 0%nat)].
Proof.
  apply (addChildAt_reparenting_notifies_added_only
           0%nat 5%nat 1 4%nat (mkWorld two_families [])).
  - reflexivity.
  - discriminate.
  - vm_compute. split; discriminate.
Defined.

(** ** Failure *)

(** C9: when a call of [removeChildren], [removeChildAt], [getChildAt],
    [getChildIndex], [setChildIndex], [addChildAt] or [swapChildren] throws,
    the store (every array of children, every parent, every flag) and the log
    are what they were before the call. *)
Theorem failed_call_changes_nothing this r w e w' :
  perform this r w = (Throw e, w') -> w' = w.
Proof.
  destruct r as [b en|i|i|c|c i|c i|c c2]; cbn [perform]; intros H.
  - apply forget_throws in H. by eapply removeChildren_throws.
  - apply forget_throws in H. by eapply removeChildAt_throws.
  - apply forget_throws in H. by eapply getChildAt_throws.
  - apply forget_throws in H. by eapply getChildIndex_throws.
  - by eapply setChildIndex_throws.
  - apply forget_throws in H. by eapply addChildAt_throws.
  - by eapply swapChildren_throws.
Qed.

Lemma failed_call_changes_nothing_witness :
  perform 0%nat (SetChildIndex 1%nat 3) (mkWorld family [])
  = (Throw (Error_setChildIndex 3 3), mkWorld family [])
  /\ mkWorld family [] = mkWorld family [].
Proof.
  split; [reflexivity|].
  apply (failed_call_changes_nothing 0%nat (SetChildIndex 1%nat 3)
           (mkWorld family []) (Error_setChildIndex 3 3) (mkWorld family [])).
  reflexivity.
Defined.

(** ** Bulk removal *)

(** C3, as the code has it: [removeChildren] throws its [RangeError] exactly
    when the range is not acceptable (it is empty or reversed, or it starts at
    a negative position) and the call is not the one on a container without
    children with a range of zero; the store and the log are then untouched,
    and every other call returns.  A positive range alone does not make the
    call valid: [beginIndex] must not be negative. *)
Theorem removeChildren_throws_iff this beginIndex endIndex w :
  let b := default 0 beginIndex in
  let cs := children (store w this) in
  let e := default (len cs) endIndex in
  (removeChildren this beginIndex endIndex w = (Throw RangeError_removeChildren, w)
   <-> ~ (0 < e - b /\ 0 <= b) /\ ~ (e - b = 0 /\ cs = []))
  /\ ((exists removed w', removeChildren this beginIndex endIndex w = (Return removed, w'))
      <-> (0 < e - b /\ 0 <= b) \/ (e - b = 0 /\ cs = [])).
Proof.
  intros b cs e.
  destruct (decide (0 <= b /\ b < e)) as [[Hb Hbe]|Hr].
  { destruct (removeChildren_accepted this beginIndex endIndex w Hb Hbe)
      as (h' & Hrun & _). fold b cs e in Hrun. rewrite Hrun. split.
    - split; [congruence | intros [H _]; exfalso; apply H; lia].
    - split; [intros _; left; lia | intros _; by do 2 eexists]. }
  destruct (decide (e = b /\ cs = [])) as [[He Hcs]|Hn].
  { rewrite (removeChildren_nothing this beginIndex endIndex w He Hcs). split.
    - split; [congruence | intros [_ H]; exfalso; apply H; split; [lia | done]].
    - split; [intros _; right; split; [lia | done] | intros _; by do 2 eexists]. }
  rewrite (removeChildren_refused this beginIndex endIndex w Hr Hn). split.
  - split; [intros _ | done]. split; [lia|]. intros [? ?]. apply Hn. split; [lia | done].
  - split; [intros (? & ? & ?); congruence|].
    intros [[? ?]|[? ?]]; exfalso; [apply Hr; lia | apply Hn; split; [lia | done]].
Qed.

(** C3 as stated fails: on a container with one child,
    [removeChildren(-1, 1)] has the positive range 2, and it throws. *)
Lemma removeChildren_positive_range_can_throw :
  ~ (forall this b e w,
       e - b > 0 ->
       exists removed w',
         removeChildren this (Some b) (Some e) w = (Return removed, w')).
Proof.
  intros H.
  destruct (H 0%nat (-1) 1 (mkWorld single []) eq_refl) as (removed & w' & Hrun).
  vm_compute in Hrun. discriminate.
Qed.

Lemma emitted_app l1 l2 : emitted (l1 ++ l2) = emitted l1 ++ emitted l2.
Proof. apply omap_app. Qed.

Lemma emitted_Emit target e seen l :
  emitted (Emit target e seen :: l) = (target, e) :: emitted l.
Proof. done. Qed.

Lemma emitted_layer_removals g l : emitted (layer_removals g l) = [].
Proof. destruct g as [g|]; [|done]. by induction l. Qed.

Lemma emitted_notifications this h rest : forall i,
  emitted (notifications this h rest i)
  = concat (imap (fun k child =>
                    [(this, childRemoved child this (i + Z.of_nat k));
                     (child, removed this)]) rest).
Proof.
  induction rest as [|child rest IH]; intros i; [done|].
  rewrite notifications_cons, imap_cons. cbn [concat app].
  rewrite !emitted_Emit, IH, Z.add_0_r.
  do 3 f_equal. apply imap_ext. intros k x _. simpl. do 3 f_equal. lia.
Qed.

Lemma notifications_seen this h rest : forall i,
  Forall (fun a => match a with Emit _ _ seen => seen = h | _ => True end)
         (notifications this h rest i).
Proof.
  induction rest as [|child rest IH]; intros i.
  - unfold notifications. simpl. constructor.
  - rewrite notifications_cons. by repeat constructor.
Qed.

(** The children cut out by a range and the children that stay. *)
Lemma range_split (cs : list node) b n :
  cs = take b cs ++ take n (drop b cs) ++ drop (b + n) cs.
Proof. by rewrite <- drop_drop, !take_drop. Qed.

Lemma range_length (cs : list node) b n :
  (b + n <= length cs)%nat -> length (take n (drop b cs)) = n.
Proof. intros H. rewrite length_take, length_drop. lia. Qed.

Lemma range_lookup (cs : list node) b n k :
  (k < n)%nat -> take n (drop b cs) !! k = cs !! (b + k)%nat.
Proof. intros H. by rewrite lookup_take_lt, lookup_drop. Qed.

Lemma range_disjoint (cs : list node) b n x :
  NoDup cs -> x ∈ take n (drop b cs) -> x ∉ take b cs ++ drop (b + n) cs.
Proof.
  intros Hnd Hx. rewrite (range_split cs b n) in Hnd.
  apply NoDup_app in Hnd as (_ & H1 & Hnd).
  apply NoDup_app in Hnd as (_ & H2 & _).
  rewrite elem_of_app. intros [Hl|Hr].
  - apply (H1 x Hl). apply elem_of_app. by left.
  - by apply (H2 x Hx).
Qed.

Lemma detached_parent gone h c : c ∈ gone -> parent (detached gone h c) = None.
Proof. intros Hc. unfold detached. by rewrite bool_decide_eq_true_2. Qed.

(** C4, as the code has it: for a range with [0 <= b < e <= length],
    [removeChildren(b, e)] returns [e - b] containers, the one that was at
    position [e - 1] first and the one that was at [b] last; the children
    that stay are those before [b] and those from [e] on, in their order, so
    the array is shorter by [e - b]; and every returned container has no
    parent any more. *)
Theorem removeChildren_removes_range this beginIndex endIndex w :
  let b := default 0 beginIndex in
  let cs := children (store w this) in
  let e := default (len cs) endIndex in
  0 <= b -> b < e -> e <= len cs ->
  exists removed w',
    removeChildren this beginIndex endIndex w = (Return removed, w')
    /\ len removed = e - b
    /\ (forall k, 0 <= k < e - b -> item removed k = item cs (e - 1 - k))
    /\ children (store w' this) = take (Z.to_nat b) cs ++ drop (Z.to_nat e) cs
    /\ len (children (store w' this)) = len cs - (e - b)
    /\ (forall c, c ∈ removed -> parent (store w' c) = None).
Proof.
  intros b cs e Hb Hbe He.
  destruct (removeChildren_accepted this beginIndex endIndex w Hb Hbe)
    as (h' & Hrun & Hrest & Hthis).
  fold b cs e in Hrun, Hrest, Hthis.
  set (n := Z.to_nat (e - b)) in *. set (gone := take n (drop (Z.to_nat b) cs)) in *.
  assert (length gone = n) as Hlen
    by (apply range_length; unfold len in He; lia).
  eexists. eexists. split; [exact Hrun|]. cbn [store].
  assert (children (h' this) = take (Z.to_nat b) cs ++ drop (Z.to_nat e) cs) as Hcs'
    by (by rewrite Hthis).
  split; [|split; [|split; [|split]]].
  - unfold len. rewrite length_reverse, Hlen. lia.
  - intros k Hk. unfold item.
    destruct (Z.ltb_spec k 0); [lia|]. destruct (Z.ltb_spec (e - 1 - k) 0); [lia|].
    rewrite reverse_lookup by lia. rewrite Hlen.
    unfold gone. rewrite range_lookup by lia. f_equal. lia.
  - done.
  - rewrite Hcs'. unfold len in *. rewrite length_app, length_take, length_drop. lia.
  - intros c Hc. rewrite elem_of_reverse in Hc.
    destruct (decide (c = this)) as [->|Hne].
    + rewrite Hthis. cbn [parent with_children]. by apply detached_parent.
    + rewrite Hrest by done. by apply detached_parent.
Qed.

Lemma removeChildren_removes_range_witness :
  exists removed w',
    removeChildren 0%nat (Some 1) None (mkWorld family []) = (Return removed, w')
    /\ len removed = 3 - 1
    /\ (forall k, 0 <= k < 3 - 1 -> item removed k = item [1; 2; 3]%nat (3 - 1 - k))
    /\ children (store w' 0%nat) = [1%nat]
    /\ len (children (store w' 0%nat)) = 3 - (3 - 1)
    /\ (forall c, c ∈ removed -> parent (store w' c) = None).
Proof.
  apply (removeChildren_removes_range 0%nat (Some 1) None (mkWorld family [])).
  - vm_compute. discriminate.
  - reflexivity.
  - vm_compute. discriminate.
Defined.

(** C4 as stated fails: on a container with one child, [removeChildren(0, 3)]
    has [e > b] and returns one container, not three. *)
Lemma removeChildren_range_can_exceed_children :
  ~ (forall this b e w,
       b < e ->
       exists removed w',
         removeChildren this (Some b) (Some e) w = (Return removed, w')
         /\ len removed = e - b).
Proof.
  intros H.
  destruct (H 0%nat 0 3 (mkWorld single []) eq_refl) as (removed & w' & Hrun & Hlen).
  vm_compute in Hrun. injection Hrun as <- _. vm_compute in Hlen. discriminate.
Qed.

(** C5: when [removeChildren] returns, the list it returns holds the
    children of the range, the one at the highest position first; the
    children of [this] have then lost the range; and the call has added to the
    log the calls to the layer group and after them, for each returned
    container in the order of the list, [childRemoved] on [this] with the
    container's position in the list (counted from 0) and then [removed] on
    the container, every one of them sent on the final store. *)
Theorem removeChildren_notifies_in_removal_order
        this beginIndex endIndex w batch w' :
  removeChildren this beginIndex endIndex w = (Return batch, w') ->
  let b := default 0 beginIndex in
  let cs := children (store w this) in
  let e := default (len cs) endIndex in
  let new := layer_removals (layerGroup (store w this)) batch
             ++ notifications this (store w') batch 0 in
  batch = reverse (take (Z.to_nat (e - b)) (drop (Z.to_nat b) cs))
  /\ children (store w' this) = removeItems cs b e
  /\ log w' = log w ++ new
  /\ emitted new
     = concat (imap (fun k child =>
                       [(this, childRemoved child this (Z.of_nat k));
                        (child, removed this)]) batch)
  /\ Forall (fun a => match a with
                      | Emit _ _ seen => seen = store w'
                      | _ => True
                      end) new.
Proof.
  intros Hrun b cs e new.
  assert (emitted new
          = concat (imap (fun k child =>
                            [(this, childRemoved child this (Z.of_nat k));
                             (child, removed this)]) batch)) as Hem.
  { unfold new. rewrite emitted_app, emitted_layer_removals, emitted_notifications.
    done. }
  assert (Forall (fun a => match a with
                           | Emit _ _ seen => seen = store w'
                           | _ => True
                           end) new) as Hseen.
  { unfold new. apply Forall_app. split; [|apply notifications_seen].
    destruct (layerGroup (store w this)); simpl; [|constructor].
    by apply Forall_map, Forall_true. }
  destruct (decide (0 <= b /\ b < e)) as [[Hb Hbe]|Hr].
  { destruct (removeChildren_accepted this beginIndex endIndex w Hb Hbe)
      as (h' & Hrun' & _ & Hthis). fold b cs e in Hrun', Hthis.
    rewrite Hrun' in Hrun. injection Hrun as <- <-. cbn [store log] in *.
    repeat split; try done. by rewrite Hthis. }
  destruct (decide (e = b /\ cs = [])) as [[He Hcs]|Hn].
  { rewrite (removeChildren_nothing this beginIndex endIndex w He Hcs) in Hrun.
    injection Hrun as <- <-. fold cs. rewrite Hcs.
    unfold removeItems. rewrite !drop_nil, !take_nil.
    repeat split; try done.
    unfold new. destruct (layerGroup (store w this)); simpl; by rewrite app_nil_r. }
  rewrite (removeChildren_refused this beginIndex endIndex w Hr Hn) in Hrun.
  discriminate.
Qed.

Lemma removeChildren_notifies_in_removal_order_witness :
  exists w',
    removeChildren 0%nat (Some 1) None (mkWorld family []) = (Return [3; 2]%nat, w')
    /\ children (store w' 0%nat) = [1%nat]
    /\ emitted (log w')
       = [(0%nat, childRemoved 3%nat 0%nat 0); (3%nat, removed 0%nat);
          (0%nat, childRemoved 2%nat 0%nat 1); (2%nat, removed 0%nat)].
Proof.
  set (w' := (removeChildren 0%nat (Some 1) None (mkWorld family [])).2).
  assert (removeChildren 0%nat (Some 1) None (mkWorld family [])
          = (Return [3; 2]%nat, w')) as Hrun by reflexivity.
  exists w'. split; [exact Hrun|].
  destruct (removeChildren_notifies_in_removal_order _ _ _ _ _ _ Hrun)
    as (_ & Hcs & Hlog & Hem & _).
  split; [exact Hcs|]. rewrite Hlog. exact Hem.
Defined.

(** ** Notification after commitment *)

Lemma forget_world {A} (m : M A) w : ((m;;; ret tt) w).2 = (m w).2.
Proof. unfold bind, ret. by destruct (m w) as [[a|x] w1]. Qed.

Lemma announces_nothing {A} w (o : outcome A) : announces_committed w (o, w).
Proof. exists []. cbn [snd]. split; [by rewrite app_nil_r | constructor]. Qed.

Lemma notifications_committed this h rest :
  (forall c, c ∈ rest -> parent (h c) = None /\ c ∉ children (h this)) ->
  forall i, Forall (committed h) (notifications this h rest i).
Proof.
  induction rest as [|child rest IH]; intros Hrest i.
  - unfold notifications. simpl. constructor.
  - rewrite notifications_cons.
    assert (parent (h child) = None /\ child ∉ children (h this)) as Hc
      by (apply Hrest; left).
    constructor; [by split|]. constructor; [by split|].
    apply IH. intros c Hin. apply Hrest. by right.
Qed.

Lemma layer_removals_committed h g l : Forall (committed h) (layer_removals g l).
Proof.
  destruct g as [g|]; simpl; [|constructor].
  by apply Forall_map, Forall_true.
Qed.

Lemma removeChildren_committed this beginIndex endIndex w :
  NoDup (children (store w this)) ->
  announces_committed w (removeChildren this beginIndex endIndex w).
Proof.
  intros Hnd.
  set (b := default 0 beginIndex).
  set (cs := children (store w this)).
  set (e := default (len cs) endIndex).
  destruct (decide (0 <= b /\ b < e)) as [[Hb Hbe]|Hr].
  { destruct (removeChildren_accepted this beginIndex endIndex w Hb Hbe)
      as (h' & -> & Hrest & Hthis).
    fold b cs e in Hrest, Hthis |- *.
    set (gone := take (Z.to_nat (e - b)) (drop (Z.to_nat b) cs)) in *.
    eexists. cbn [snd store log]. split; [reflexivity|].
    apply Forall_app. split; [apply layer_removals_committed|].
    apply notifications_committed. intros c Hc. rewrite elem_of_reverse in Hc.
    split.
    - destruct (decide (c = this)) as [->|Hne].
      + rewrite Hthis. cbn [parent with_children]. by apply detached_parent.
      + rewrite Hrest by done. by apply detached_parent.
    - rewrite Hthis. cbn [children with_children]. unfold removeItems.
      replace (Z.to_nat e) with (Z.to_nat b + Z.to_nat (e - b))%nat by lia.
      by apply range_disjoint. }
  destruct (decide (e = b /\ cs = [])) as [[He Hcs]|Hn].
  { rewrite (removeChildren_nothing this beginIndex endIndex w He Hcs).
    apply announces_nothing. }
  rewrite (removeChildren_refused this beginIndex endIndex w Hr Hn).
  apply announces_nothing.
Qed.

Lemma addChildAt_committed this child index w :
  announces_committed w (addChildAt this child index w).
Proof.
  destruct (decide (0 <= index <= len (children (store w this)))) as [Hi|Hi].
  - destruct (decide (in_place this child index (store w))) as [Hp|Hp].
    + rewrite (addChildAt_kept this child index w Hi Hp). apply announces_nothing.
    + rewrite (addChildAt_moved this child index w Hi Hp).
      destruct (addChildAt_insert_run this child index
                  (mkWorld (unlinked child (store w)) (log w)))
        as (h' & -> & Hcs & Hparent & _); [lia|].
      eexists. cbn [snd store log] in *. split; [reflexivity|].
      assert (child ∈ children (h' this)) as Hin.
      { rewrite Hcs. apply elem_of_app. right. left. }
      apply Forall_app. split.
      * destruct (layerGroup (unlinked child (store w) this)); by repeat constructor.
      * by repeat constructor.
  - rewrite (addChildAt_refused this child index w Hi). apply announces_nothing.
Qed.

Lemma setChildIndex_committed this child index w :
  announces_committed w (setChildIndex this child index w).
Proof.
  destruct (decide (0 <= index < len (children (store w this)))) as [Hi|Hi].
  - destruct (decide (child ∈ children (store w this))) as [Hin|Hin].
    + rewrite (setChildIndex_member this child index w Hi Hin).
      destruct (addChildAt_committed this child index w) as (new & Hlog & Hall).
      exists new. by rewrite forget_world.
    + rewrite (setChildIndex_stranger this child index w Hi Hin).
      apply announces_nothing.
  - rewrite (setChildIndex_outside this child index w Hi). apply announces_nothing.
Qed.

(** C1: in [removeChildren], [addChildAt] and [setChildIndex] (which goes
    through [addChildAt]), every notification is sent on the final store of
    the operation: a listener of [childRemoved] or [removed] finds the removed
    child without parent and out of the children of [this], a listener of
    [childAdded] or [added] finds the added child with [this] as its parent
    and among the children of [this].  The children of [this] are taken to
    hold no container twice. *)
Theorem listeners_find_the_final_state this w :
  NoDup (children (store w this)) ->
  (forall beginIndex endIndex,
     announces_committed w (removeChildren this beginIndex endIndex w))
  /\ (forall child index, announces_committed w (addChildAt this child index w))
  /\ (forall child index, announces_committed w (setChildIndex this child index w)).
Proof.
  intros Hnd. split; [|split].
  - intros b e. by apply removeChildren_committed.
  - intros c i. apply addChildAt_committed.
  - intros c i. apply setChildIndex_committed.
Qed.

Lemma listeners_find_the_final_state_witness :
  announces_committed (mkWorld family [])
    (removeChildren 0%nat (Some 1) None (mkWorld family []))
  /\ announces_committed (mkWorld family [])
       (addChildAt 0%nat 3%nat 0 (mkWorld family []))
  /\ announces_committed (mkWorld family [])
       (setChildIndex 0%nat 1%nat 2 (mkWorld family [])).
Proof.
  destruct (listeners_find_the_final_state 0%nat (mkWorld family []))
    as (H1 & H2 & H3).
  - compute_done.
  - split; [apply H1 | split; [apply H2 | apply H3]].
Defined.

(** ** The place of an added child *)

Lemma unlinked_parent child h m : parent (unlinked child h m) = parent (h m).
Proof.
  unfold unlinked. destruct (parent (h child)) as [p|]; [|done].
  destruct (indexOf (children (h p)) child =? -1); [done|].
  unfold upd. case_decide; by subst.
Qed.

(** Cutting the child out shortens the children of [this] by one when the
    child is one of them and has [this] as its parent, and leaves them alone
    otherwise. *)
Lemma unlinked_children this child h :
  let cs := children (h this) in
  let cs1 := children (unlinked child h this) in
  (parent (h child) = Some this /\ child ∈ cs /\ len cs1 = len cs - 1)
  \/ (~ (parent (h child) = Some this /\ child ∈ cs) /\ cs1 = cs).
Proof.
  intros cs cs1. unfold cs1, unlinked.
  destruct (parent (h child)) as [p|] eqn:Hp; [|right; split; [by intros [? _] | done]].
  destruct (Z.eqb_spec (indexOf (children (h p)) child) (-1)) as [E|E].
  { right. split; [|done]. intros [[= ->] Hin]. by apply indexOf_absent in E. }
  destruct (decide (p = this)) as [->|Hne].
  - left. fold cs in E |- *. rewrite upd_same. cbn [children with_children].
    pose proof (indexOf_bounds cs child) as Hb.
    assert (child ∈ cs) as Hin.
    { destruct (decide (child ∈ cs)) as [|Hn]; [done|].
      by apply indexOf_absent in Hn. }
    repeat split; try done.
    rewrite splice_delete by lia. unfold len in *.
    rewrite length_app, length_take, length_drop. lia.
  - right. split; [intros [[= ->] _]; done|]. by rewrite upd_other.
Qed.

(** Where [addChildAt] puts the child: at [index], except when the child is
    moved inside its own parent to the position [length], in which case the
    array is one shorter by the time the child is inserted. *)
Lemma addChildAt_then_getChildAt this c index w :
  0 <= index <= len (children (store w this)) ->
  ~ (parent (store w c) = Some this /\ c ∈ children (store w this)
     /\ index = len (children (store w this))) ->
  exists w',
    addChildAt this c index w = (Return c, w')
    /\ getChildAt this index w' = (Return (Some c), w')
    /\ parent (store w' c) = Some this.
Proof.
  intros Hi Hexcl. set (cs := children (store w this)) in *.
  destruct (decide (in_place this c index (store w))) as [Hp|Hp].
  - rewrite (addChildAt_kept this c index w Hi Hp). exists w.
    destruct Hp as [Hp Hc]. fold cs in Hc.
    pose proof (indexOf_bounds cs c) as Hb.
    assert (indexOf cs c <> -1) as Hne by lia.
    pose proof (indexOf_lookup cs c Hne) as Hl.
    split; [done|]. split; [|done].
    rewrite getChildAt_inside by (fold cs; lia). fold cs.
    do 2 f_equal. apply item_Some. split; [lia | by rewrite <- Hc].
  - rewrite (addChildAt_moved this c index w Hi Hp).
    destruct (addChildAt_insert_run this c index
                (mkWorld (unlinked c (store w)) (log w)))
      as (h' & -> & Hcs & Hparent & _); [lia|].
    cbn [store] in Hcs.
    set (cs1 := children (unlinked c (store w) this)) in *.
    assert (index <= len cs1) as Hi1.
    { pose proof (unlinked_children this c (store w)) as Hu.
      cbv zeta in Hu. fold cs in Hu. fold cs1 in Hu.
      destruct Hu as [(H1 & H2 & H3)|[_ H]]; [|rewrite H; lia].
      destruct (decide (index = len cs)); [exfalso; by apply Hexcl | lia]. }
    eexists. split; [reflexivity|]. split; [|done].
    assert (length (take (Z.to_nat index) cs1) = Z.to_nat index) as Hlen
      by (rewrite length_take; unfold len in Hi1; lia).
    rewrite getChildAt_inside; cbn [store]; rewrite Hcs.
    + do 2 f_equal. apply item_Some. split; [lia|].
      by apply list_lookup_middle.
    + unfold len in *. rewrite length_app, Hlen. simpl. lia.
Qed.

(** C2: the claim fails where a child of [this] is added again at the
    position [length].  On the parent [0] with the children [1], [2], [3],
    [addChildAt(1, 3)] accepts the index, cuts [1] out, inserts it into the
    shorter array and leaves [2], [3], [1]: the child is at position 2, the
    notification says 3, and [getChildAt(3)] throws. *)
Theorem addChildAt_own_child_at_length_misses_index :
  exists w',
    3 <= len (children (family 0%nat))
    /\ addChildAt 0%nat 1%nat 3 (mkWorld family []) = (Return 1%nat, w')
    /\ children (store w' 0%nat) = [2; 3; 1]%nat
    /\ parent (store w' 1%nat) = Some 0%nat
    /\ emitted (log w') = [(0%nat, childAdded 1%nat 0%nat 3); (1%nat, added 0%nat)]
    /\ getChildAt 0%nat 2 w' = (Return (Some 1%nat), w')
    /\ getChildAt 0%nat 3 w' = (Throw (Error_getChildAt 3), w').
Proof.
  eexists. split; [by vm_compute|].
  split; [vm_compute; reflexivity|].
  repeat split.
Qed.

(** * Further properties of the mixin *)

(** ** Cutting out and putting in *)

Lemma splice_delete_at (l : list node) i :
  0 <= i < len l -> splice i 1 [] l = delete (Z.to_nat i) l.
Proof. intros Hi. by rewrite splice_delete, delete_take_drop. Qed.

Lemma indexOf_member l x :
  x ∈ l -> 0 <= indexOf l x < len l /\ l !! Z.to_nat (indexOf l x) = Some x.
Proof.
  intros Hin. pose proof (indexOf_bounds l x) as Hb.
  assert (indexOf l x <> -1) as Hne by (by rewrite indexOf_absent; intros []).
  split; [lia | by apply indexOf_lookup].
Qed.

(** The first position of a container is the first one. *)
Lemma indexOf_least l x (j : nat) :
  (Z.of_nat j < indexOf l x) -> l !! j <> Some x.
Proof.
  revert j. induction l as [|y l IH]; intros j; simpl; [done|].
  pose proof (indexOf_bounds l x) as Hb.
  case_decide as Hy; [lia|].
  destruct (Z.eqb_spec (indexOf l x) (-1)) as [E|E]; [lia|].
  destruct j as [|j]; simpl; [congruence|].
  intros Hj. apply IH. lia.
Qed.

Lemma cut_Permutation l c :
  c ∈ l -> l ≡ₚ c :: splice (indexOf l c) 1 [] l.
Proof.
  intros Hin. destruct (indexOf_member l c Hin) as [Hb Hl].
  rewrite splice_delete_at by done. by apply delete_Permutation.
Qed.

Lemma cut_NoDup l c : NoDup l -> NoDup (splice (indexOf l c) 1 [] l).
Proof.
  intros Hnd. destruct (decide (c ∈ l)) as [Hin|Hout].
  - apply cut_Permutation in Hin. rewrite Hin in Hnd.
    by apply NoDup_cons in Hnd as [_ ?].
  - apply indexOf_absent in Hout. rewrite Hout. unfold splice. simpl.
    pose proof (len_nonneg l). unfold len in *.
    replace (Z.to_nat (Z.max (Z.of_nat (length l) + -1) 0)) with (length l - 1)%nat by lia.
    destruct (decide (length l = 0)%nat) as [E|E].
    + destruct l; [done | simpl in E; lia].
    + replace (Z.to_nat _) with (length l) by lia.
      rewrite drop_all, app_nil_r. eapply sublist_NoDup; [done | apply sublist_take].
Qed.

Lemma cut_members l c x :
  NoDup l -> c ∈ l -> x ∈ splice (indexOf l c) 1 [] l <-> x <> c /\ x ∈ l.
Proof.
  intros Hnd Hin. pose proof (cut_Permutation l c Hin) as Hp.
  rewrite Hp in Hnd. apply NoDup_cons in Hnd as [Hc _].
  rewrite (elem_of_Permutation_proper x _ _ Hp), elem_of_cons.
  split; [|tauto]. intros Hx. split; [|by right]. by intros ->.
Qed.

Lemma cut_length l c :
  c ∈ l -> len (splice (indexOf l c) 1 [] l) = len l - 1.
Proof.
  intros Hin. apply cut_Permutation, Permutation_length in Hin.
  simpl in Hin. unfold len. lia.
Qed.

Lemma placed_Permutation (l : list node) i c :
  take i l ++ c :: drop i l ≡ₚ c :: l.
Proof. by rewrite <- Permutation_middle, take_drop. Qed.

Lemma placed_members (l : list node) i c x :
  x ∈ take i l ++ c :: drop i l <-> x = c \/ x ∈ l.
Proof. by rewrite placed_Permutation, elem_of_cons. Qed.

Lemma placed_NoDup (l : list node) i c :
  NoDup l -> c ∉ l -> NoDup (take i l ++ c :: drop i l).
Proof. intros Hnd Hc. rewrite placed_Permutation. by apply NoDup_cons. Qed.

Lemma placed_length (l : list node) i c :
  len (take i l ++ c :: drop i l) = len l + 1.
Proof.
  unfold len. rewrite (Permutation_length (placed_Permutation l i c)).
  simpl. lia.
Qed.

(** ** The cut of lines 152-166 in a linked store *)

(** The cut touches arrays of children only. *)
Lemma unlinked_fields child h m :
  parent (unlinked child h m) = parent (h m)
  /\ didChange (unlinked child h m) = didChange (h m)
  /\ didViewUpdate (unlinked child h m) = didViewUpdate (h m)
  /\ updateFlags (unlinked child h m) = updateFlags (h m)
  /\ sortDirty (unlinked child h m) = sortDirty (h m)
  /\ sortChildren (unlinked child h m) = sortChildren (h m)
  /\ layerGroup (unlinked child h m) = layerGroup (h m).
Proof.
  unfold unlinked. destruct (parent (h child)) as [p|]; [|done].
  destruct (indexOf (children (h p)) child =? -1); [done|].
  unfold upd. case_decide; by subst.
Qed.

(** The children of every container after the cut. *)
Lemma unlinked_children_of child h m :
  children (unlinked child h m)
  = if bool_decide (parent (h child) = Some m /\ child ∈ children (h m))
    then splice (indexOf (children (h m)) child) 1 [] (children (h m))
    else children (h m).
Proof.
  unfold unlinked. destruct (parent (h child)) as [p|] eqn:Hp.
  - destruct (Z.eqb_spec (indexOf (children (h p)) child) (-1)) as [E|E].
    + rewrite bool_decide_eq_false_2; [done|].
      intros [[= ->] Hin]. by apply indexOf_absent in E.
    + destruct (decide (m = p)) as [->|Hne].
      * rewrite upd_same. rewrite bool_decide_eq_true_2; [done|].
        split; [done|]. destruct (decide (child ∈ children (h p))) as [|Hn]; [done|].
        by apply indexOf_absent in Hn.
      * rewrite upd_other by done. rewrite bool_decide_eq_false_2; [done|].
        intros [[= ->] _]. done.
  - rewrite bool_decide_eq_false_2; [done | by intros [? _]].
Qed.

Lemma unlinked_members child h p x :
  linked h ->
  x ∈ children (unlinked child h p) <-> x <> child /\ x ∈ children (h p).
Proof.
  intros [Hlink Hnd]. rewrite unlinked_children_of. case_bool_decide as Hc.
  - destruct Hc as [_ Hin]. by apply cut_members.
  - split; [|tauto]. intros Hx. split; [|done]. intros ->.
    apply Hc. split; [by apply Hlink | done].
Qed.

Lemma unlinked_NoDup child h p :
  linked h -> NoDup (children (unlinked child h p)).
Proof.
  intros [_ Hnd]. rewrite unlinked_children_of.
  case_bool_decide; [by apply cut_NoDup | apply Hnd].
Qed.

(** ** [addChildAt] in a linked store *)

(** A call that moves the child: who is whose child afterwards. *)
Lemma addChildAt_linked_run this c index w :
  linked (store w) ->
  0 <= index <= len (children (store w this)) ->
  ~ in_place this c index (store w) ->
  exists h',
    addChildAt this c index w
    = (Return c,
       mkWorld h' (log w ++ layer_addition (layerGroup (store w this)) c
                         ++ [Emit this (childAdded c this index) h';
                             Emit c (added this) h']))
    /\ children (h' this)
       = take (Z.to_nat index) (children (unlinked c (store w) this))
         ++ c :: drop (Z.to_nat index) (children (unlinked c (store w) this))
    /\ (forall p x, x ∈ children (h' p)
                    <-> (p = this /\ x = c) \/ (x <> c /\ x ∈ children (store w p)))
    /\ (forall x, parent (h' x) = if decide (x = c) then Some this
                                  else parent (store w x))
    /\ (forall p, NoDup (children (h' p))).
Proof.
  intros Hl Hi Hplace.
  rewrite (addChildAt_moved this c index w Hi Hplace).
  destruct (addChildAt_insert_run this c index
              (mkWorld (unlinked c (store w)) (log w)))
    as (h' & -> & Hcs & Hparent & _ & _ & _ & Hchildren & Hparents & _); [lia|].
  cbn [store log] in *.
  destruct (unlinked_fields c (store w) this) as (_ & _ & _ & _ & _ & _ & ->).
  exists h'. split; [done|]. split; [done|].
  assert (forall p x, x ∈ children (h' p)
                      <-> (p = this /\ x = c) \/ (x <> c /\ x ∈ children (store w p)))
    as Hmem.
  { intros p x. destruct (decide (p = this)) as [->|Hp].
    - rewrite Hcs, placed_members, unlinked_members by done.
      destruct (decide (x = c)); tauto.
    - rewrite Hchildren, unlinked_members by done. tauto. }
  split; [done|]. split.
  - intros x. case_decide as Hx; [by subst|].
    rewrite Hparents by done. apply unlinked_fields.
  - intros p. destruct (decide (p = this)) as [->|Hp].
    + rewrite Hcs. apply placed_NoDup; [by apply unlinked_NoDup|].
      rewrite unlinked_members by done. tauto.
    + rewrite Hchildren by done. by apply unlinked_NoDup.
Qed.

Lemma addChildAt_keeps_linked_run this c index w :
  linked (store w) -> linked (store (addChildAt this c index w).2).
Proof.
  intros Hl.
  destruct (decide (0 <= index <= len (children (store w this)))) as [Hi|Hi];
    [|by rewrite (addChildAt_refused this c index w Hi)].
  destruct (decide (in_place this c index (store w))) as [Hp|Hp];
    [by rewrite (addChildAt_kept this c index w Hi Hp)|].
  destruct (addChildAt_linked_run this c index w Hl Hi Hp)
    as (h' & -> & _ & Hmem & Hparent & Hnd).
  cbn [snd store]. split; [|done].
  intros p x. rewrite Hmem, Hparent. destruct Hl as [Hlink _].
  case_decide as Hx.
  - subst x. split; [intros [[-> _]|[? _]]; done|].
    intros [= ->]. by left.
  - rewrite Hlink. split; [intros [[_ ?]|[_ ?]]; done | intros ?; by right].
Qed.

(** The other fields after the insertion proper: the flags of the other
    containers, the layer groups and the sort settings stay, and the sort
    order of [this] is marked stale when [this] sorts its children. *)
Lemma addChildAt_insert_fields this child index w :
  let h' := store (addChildAt_insert this child index w).2 in
  sortDirty (h' this) = sortChildren (store w this) || sortDirty (store w this)
  /\ (forall m, m <> this -> sortDirty (h' m) = sortDirty (store w m))
  /\ (forall m, sortChildren (h' m) = sortChildren (store w m))
  /\ (forall m, layerGroup (h' m) = layerGroup (store w m))
  /\ (forall m, m <> child -> didChange (h' m) = didChange (store w m))
  /\ (forall m, m <> child -> didViewUpdate (h' m) = didViewUpdate (store w m))
  /\ (forall m, m <> child -> updateFlags (h' m) = updateFlags (store w m)).
Proof.
  unfold addChildAt_insert, bind, read, write, call, emit, when, ret.
  cbn [store log].
  destruct (decide (child = this)) as [->|Hne];
    destruct (index =? len (children (store w this))); cbn [store log];
    rewrite ?upd_same; repeat (rewrite (upd_other _ child _ this) by done);
    rewrite ?upd_same;
    cbn [layerGroup sortChildren with_children with_parent with_didChange
         with_didViewUpdate with_updateFlags];
    destruct (layerGroup (store w this)) as [g|]; cbn [store log];
    rewrite ?upd_same; repeat (rewrite (upd_other _ child _ this) by done);
    rewrite ?upd_same;
    cbn [layerGroup sortChildren with_children with_parent with_didChange
         with_didViewUpdate with_updateFlags];
    destruct (sortChildren (store w this)) eqn:Es; cbn [store log snd];
    repeat split; intros; unfold upd; repeat case_decide; subst;
    cbn [sortDirty sortChildren layerGroup didChange didViewUpdate updateFlags
         with_children with_parent with_didChange with_didViewUpdate
         with_updateFlags with_sortDirty orb]; try done.
Qed.

(** Linked stores to run the operations on. *)
Lemma linked_blank : linked (fun _ => blank).
Proof.
  split; [|intros p; constructor].
  intros p c. simpl. split; [by intros ?%elem_of_nil | done].
Qed.

Lemma linked_link p cs h :
  linked h -> children (h p) = [] ->
  Forall (fun c => parent (h c) = None) cs -> p ∉ cs -> NoDup cs ->
  linked (link p cs h).
Proof.
  intros [Hlink Hnd] Hp Hfree Hself Hcs. rewrite Forall_forall in Hfree.
  assert (forall x, parent (h x) <> Some p) as Hnone.
  { intros x Hx. apply Hlink in Hx. rewrite Hp in Hx. by apply elem_of_nil in Hx. }
  assert (forall q, children (link p cs h q)
                     = if decide (q = p) then cs else children (h q)) as Hch.
  { intros q. unfold link. case_decide; [done|]. by case_bool_decide. }
  assert (forall x, parent (link p cs h x)
                     = if decide (x = p) then parent (h p)
                       else if bool_decide (x ∈ cs) then Some p
                            else parent (h x)) as Hpa.
  { intros x. unfold link. case_decide; [by subst|]. by case_bool_decide. }
  split.
  - intros q x. rewrite Hch, Hpa.
    destruct (decide (q = p)) as [->|Hq].
    + destruct (decide (x = p)) as [->|Hx].
      * split; [done | by intros ?%Hnone].
      * case_bool_decide as Hin; [done|]. split; [done | by intros ?%Hnone].
    + destruct (decide (x = p)) as [->|Hx]; [apply Hlink|].
      case_bool_decide as Hin; [|apply Hlink].
      rewrite Hlink, (Hfree x Hin). split; [done | intros [= ->]; done].
  - intros q. rewrite Hch. case_decide; [done | apply Hnd].
Qed.

Lemma linked_family : linked family.
Proof.
  apply linked_link; [apply linked_blank | done | by repeat constructor | |];
    compute_done.
Defined.

Lemma linked_two_families : linked two_families.
Proof.
  apply linked_link;
    [apply linked_link; [apply linked_blank | done | by repeat constructor | |];
     compute_done
    | done | by repeat constructor | |]; compute_done.
Defined.

(** ** The lookups *)

(** X1: [getChildIndex] throws exactly for a container that is not among the
    children; for one that is, it returns the first position at which the
    container sits, a position inside the array at which [getChildAt] finds
    that container again, and neither call changes anything. *)
Theorem getChildIndex_first_position this c w :
  let cs := children (store w this) in
  (c ∉ cs -> getChildIndex this c w = (Throw Error_notAChild, w))
  /\ (c ∈ cs ->
      exists i,
        getChildIndex this c w = (Return i, w)
        /\ 0 <= i < len cs
        /\ getChildAt this i w = (Return (Some c), w)
        /\ forall k, 0 <= k < i -> item cs k <> Some c).
Proof.
  intros cs. split; [apply getChildIndex_stranger|].
  intros Hin. destruct (indexOf_member cs c Hin) as [Hb Hl].
  exists (indexOf cs c). split; [by apply getChildIndex_member|].
  split; [done|]. split.
  - rewrite getChildAt_inside by done. fold cs. do 2 f_equal.
    apply item_Some. split; [lia | done].
  - intros k Hk Hitem. apply item_Some in Hitem as [_ Hitem].
    apply (indexOf_least cs c (Z.to_nat k)); [lia | done].
Qed.

Lemma getChildIndex_first_position_witness :
  exists i,
    getChildIndex 0%nat 3%nat (mkWorld family []) = (Return i, mkWorld family [])
    /\ 0 <= i < 3
    /\ getChildAt 0%nat i (mkWorld family []) = (Return (Some 3%nat), mkWorld family [])
    /\ forall k, 0 <= k < i -> item [1; 2; 3]%nat k <> Some 3%nat.
Proof.
  apply (getChildIndex_first_position 0%nat 3%nat (mkWorld family [])).
  compute_done.
Defined.

(** X2: where the children hold no container twice, [getChildAt] followed by
    [getChildIndex] comes back to the index: for an index inside the array,
    [getChildAt] returns a container, never [undefined], and
    [getChildIndex] of that container is the index. *)
Theorem getChildAt_then_getChildIndex this index w :
  NoDup (children (store w this)) ->
  0 <= index < len (children (store w this)) ->
  exists c,
    getChildAt this index w = (Return (Some c), w)
    /\ getChildIndex this c w = (Return index, w).
Proof.
  intros Hnd Hi. set (cs := children (store w this)) in *.
  destruct (lookup_lt_is_Some_2 cs (Z.to_nat index)) as [c Hc];
    [unfold len in Hi; lia|].
  exists c. split.
  - rewrite getChildAt_inside by done. fold cs. do 2 f_equal.
    apply item_Some. split; [lia | done].
  - rewrite getChildIndex_member by (by eapply list_elem_of_lookup_2).
    fold cs. rewrite (indexOf_NoDup cs c _ Hnd Hc). do 2 f_equal. lia.
Qed.

Lemma getChildAt_then_getChildIndex_witness :
  exists c,
    getChildAt 0%nat 1 (mkWorld family []) = (Return (Some c), mkWorld family [])
    /\ getChildIndex 0%nat c (mkWorld family []) = (Return 1, mkWorld family []).
Proof.
  apply (getChildAt_then_getChildIndex 0%nat 1 (mkWorld family [])).
  - compute_done.
  - compute_done.
Defined.

(** ** Insertion *)

Lemma addChildAt_returns this c index w :
  0 <= index <= len (children (store w this)) ->
  exists w', addChildAt this c index w = (Return c, w').
Proof.
  intros Hi. destruct (decide (in_place this c index (store w))) as [Hp|Hp].
  - exists w. by apply addChildAt_kept.
  - rewrite (addChildAt_moved this c index w Hi Hp).
    destruct (addChildAt_insert_run this c index
                (mkWorld (unlinked c (store w)) (log w)))
      as (h' & -> & _); [lia | by eexists].
Qed.

(** X3: [addChildAt] throws exactly when the index is negative or greater
    than the number of children, whatever the child, and then changes
    nothing; for every other index it returns the child it was given. *)
Theorem addChildAt_throws_iff this c index w :
  let n := len (children (store w this)) in
  (addChildAt this c index w = (Throw (Error_addChildAt c index n), w)
   <-> index < 0 \/ n < index)
  /\ ((exists w', addChildAt this c index w = (Return c, w'))
      <-> 0 <= index <= n).
Proof.
  intros n. destruct (decide (0 <= index <= n)) as [Hi|Hi].
  - destruct (addChildAt_returns this c index w Hi) as [w' Hrun].
    rewrite Hrun. split.
    + split; [congruence | lia].
    + split; [done | intros _; by eexists].
  - rewrite (addChildAt_refused this c index w Hi). split.
    + split; [intros _; fold n; lia | done].
    + split; [intros [? ?]; congruence | done].
Qed.

(** X4: a child that is not already a child of [this] enters at [index]
    exactly: the children before [index] keep their positions, the child is
    at [index], the children from [index] on move up by one, and the array is
    longer by one. *)
Theorem addChildAt_new_child_shifts_the_rest this c index w :
  let cs := children (store w this) in
  0 <= index <= len cs ->
  ~ (parent (store w c) = Some this /\ c ∈ cs) ->
  exists w',
    addChildAt this c index w = (Return c, w')
    /\ children (store w' this)
       = take (Z.to_nat index) cs ++ c :: drop (Z.to_nat index) cs
    /\ len (children (store w' this)) = len cs + 1
    /\ item (children (store w' this)) index = Some c
    /\ (forall k, 0 <= k < index -> item (children (store w' this)) k = item cs k)
    /\ (forall k, index <= k -> item (children (store w' this)) (k + 1) = item cs k).
Proof.
  intros cs Hi Hnew.
  assert (~ in_place this c index (store w)) as Hplace.
  { intros [Hp Hc]. apply Hnew. split; [done|]. fold cs in Hc.
    destruct (decide (c ∈ cs)) as [|Hn]; [done|].
    apply indexOf_absent in Hn. lia. }
  rewrite (addChildAt_moved this c index w Hi Hplace).
  destruct (addChildAt_insert_run this c index
              (mkWorld (unlinked c (store w)) (log w)))
    as (h' & -> & Hcs & _); [lia|].
  cbn [store] in Hcs. rewrite unlinked_children_of in Hcs.
  rewrite bool_decide_eq_false_2 in Hcs by done. fold cs in Hcs.
  eexists. split; [reflexivity|]. cbn [store]. rewrite Hcs.
  assert (length (take (Z.to_nat index) cs) = Z.to_nat index) as Hlen
    by (rewrite length_take; unfold len in Hi; lia).
  split; [done|]. split; [apply placed_length|]. split; [|split].
  - apply item_Some. split; [lia|]. by apply list_lookup_middle.
  - intros k Hk. unfold item. destruct (Z.ltb_spec k 0); [lia|].
    rewrite lookup_app_l by lia. apply lookup_take_lt. lia.
  - intros k Hk. unfold item.
    destruct (Z.ltb_spec (k + 1) 0); [lia|]. destruct (Z.ltb_spec k 0); [lia|].
    rewrite lookup_app_r by lia. rewrite Hlen.
    replace (Z.to_nat (k + 1) - Z.to_nat index)%nat
      with (S (Z.to_nat k - Z.to_nat index)) by lia.
    rewrite <- lookup_tail. cbn [tail]. rewrite lookup_drop. f_equal. lia.
Qed.

Lemma addChildAt_new_child_shifts_the_rest_witness :
  exists w',
    addChildAt 0%nat 5%nat 1 (mkWorld two_families []) = (Return 5%nat, w')
    /\ children (store w' 0%nat) = [1; 5; 2]%nat.
Proof.
  destruct (addChildAt_new_child_shifts_the_rest
              0%nat 5%nat 1 (mkWorld two_families []))
    as (w' & Hrun & Hcs & _).
  - compute_done.
  - intros [H _]. vm_compute in H. discriminate.
  - exists w'. split; [exact Hrun | exact Hcs].
Defined.

(** X5: moving a child from another parent [q], whose children hold no
    container twice, takes exactly that child out of the children of [q] and
    puts it among the children of [this]: [q] has one child less and does not
    have the child any more, [this] has one child more with the child at
    [index], and the parent of the child is [this]. *)
Theorem addChildAt_reparenting_moves_the_child this c index q w :
  parent (store w c) = Some q -> q <> this ->
  c ∈ children (store w q) -> NoDup (children (store w q)) ->
  0 <= index <= len (children (store w this)) ->
  exists w',
    addChildAt this c index w = (Return c, w')
    /\ parent (store w' c) = Some this
    /\ (c ∉ children (store w' q))
    /\ (forall x, x <> c -> x ∈ children (store w' q) <-> x ∈ children (store w q))
    /\ len (children (store w' q)) = len (children (store w q)) - 1
    /\ len (children (store w' this)) = len (children (store w this)) + 1
    /\ item (children (store w' this)) index = Some c.
Proof.
  intros Hp Hq Hin Hnd Hi.
  assert (~ in_place this c index (store w)) as Hplace
    by (intros [Hp' _]; congruence).
  rewrite (addChildAt_moved this c index w Hi Hplace).
  destruct (addChildAt_insert_run this c index
              (mkWorld (unlinked c (store w)) (log w)))
    as (h' & -> & Hcs & Hparent & _ & _ & _ & Hchildren & _); [lia|].
  cbn [store] in Hcs, Hchildren.
  rewrite unlinked_children_of in Hcs.
  rewrite bool_decide_eq_false_2 in Hcs by (intros [? _]; congruence).
  specialize (Hchildren q Hq). rewrite unlinked_children_of in Hchildren.
  rewrite bool_decide_eq_true_2 in Hchildren by done.
  eexists. split; [reflexivity|]. cbn [store]. split; [done|].
  rewrite Hchildren, Hcs.
  split; [rewrite cut_members by done; tauto|].
  split; [intros x Hx; rewrite cut_members by done; tauto|].
  split; [by apply cut_length|]. split; [apply placed_length|].
  apply item_Some. split; [lia|]. apply list_lookup_middle.
  rewrite length_take. unfold len in Hi. lia.
Qed.

Lemma addChildAt_reparenting_moves_the_child_witness :
  exists w',
    addChildAt 0%nat 5%nat 2 (mkWorld two_families []) = (Return 5%nat, w')
    /\ parent (store w' 5%nat) = Some 0%nat
    /\ (5%nat ∉ children (store w' 4%nat))
    /\ item (children (store w' 0%nat)) 2 = Some 5%nat.
Proof.
  destruct (addChildAt_reparenting_moves_the_child
              0%nat 5%nat 2 4%nat (mkWorld two_families []))
    as (w' & Hrun & Hp & Hout & _ & _ & _ & Hat).
  - reflexivity.
  - discriminate.
  - compute_done.
  - compute_done.
  - compute_done.
  - exists w'. split; [exact Hrun|]. split; [exact Hp|]. split; [exact Hout | exact Hat].
Defined.

(** X6: a call of [addChildAt] that moves the child sets [didChange], clears
    [didViewUpdate] and sets [updateFlags] to 15 on the child, marks the sort
    order of [this] stale when [this] sorts its children, and leaves these
    flags alone on every other container; it tells the layer group of [this],
    if there is one, before it notifies, and it never calls [removeChild] on a
    layer group. *)
Theorem addChildAt_marks_the_child_changed this c index w :
  0 <= index <= len (children (store w this)) ->
  ~ in_place this c index (store w) ->
  exists w',
    addChildAt this c index w = (Return c, w')
    /\ didChange (store w' c) = true
    /\ didViewUpdate (store w' c) = false
    /\ updateFlags (store w' c) = 15
    /\ sortDirty (store w' this)
       = sortChildren (store w this) || sortDirty (store w this)
    /\ (forall m, m <> c ->
          didChange (store w' m) = didChange (store w m)
          /\ didViewUpdate (store w' m) = didViewUpdate (store w m)
          /\ updateFlags (store w' m) = updateFlags (store w m))
    /\ (forall m, m <> this -> sortDirty (store w' m) = sortDirty (store w m))
    /\ log w' = log w ++ layer_addition (layerGroup (store w this)) c
                      ++ [Emit this (childAdded c this index) (store w');
                          Emit c (added this) (store w')].
Proof.
  intros Hi Hplace.
  rewrite (addChildAt_moved this c index w Hi Hplace).
  pose proof (addChildAt_insert_fields this c index
                (mkWorld (unlinked c (store w)) (log w))) as Hf.
  destruct (addChildAt_insert_run this c index
              (mkWorld (unlinked c (store w)) (log w)))
    as (h' & Hrun & _ & _ & Hd & Hv & Hu & _); [lia|].
  rewrite Hrun in Hf |- *. cbv zeta in Hf. cbn [snd store log] in *.
  destruct Hf as (Hs & Hso & _ & _ & Hd' & Hv' & Hu').
  pose proof (unlinked_fields c (store w)) as Hun.
  eexists. split; [reflexivity|]. cbn [store log].
  repeat split; try done.
  - rewrite Hs. by destruct (Hun this) as (_ & _ & _ & _ & -> & -> & _).
  - rewrite Hd' by done. apply Hun.
  - rewrite Hv' by done. apply Hun.
  - rewrite Hu' by done. apply Hun.
  - intros m Hm. rewrite Hso by done. apply Hun.
  - by destruct (Hun this) as (_ & _ & _ & _ & _ & _ & ->).
Qed.

Lemma addChildAt_marks_the_child_changed_witness :
  exists w',
    addChildAt 0%nat 3%nat 0 (mkWorld family []) = (Return 3%nat, w')
    /\ didChange (store w' 3%nat) = true
    /\ updateFlags (store w' 3%nat) = 15
    /\ didChange (store w' 1%nat) = false.
Proof.
  destruct (addChildAt_marks_the_child_changed 0%nat 3%nat 0 (mkWorld family []))
    as (w' & Hrun & Hd & _ & Hu & _ & Hrest & _).
  - compute_done.
  - intros [_ H]. vm_compute in H. discriminate.
  - exists w'. split; [exact Hrun|]. split; [exact Hd|]. split; [exact Hu|].
    destruct (Hrest 1%nat) as (-> & _); [discriminate | reflexivity].
Defined.

(** X7: [addChildAt] keeps a linked store linked, whatever the child and the
    index: after the call every container is still among the children of
    exactly its parent, and no array of children holds a container twice. *)
Theorem addChildAt_keeps_the_links this c index w :
  linked (store w) -> linked (store (addChildAt this c index w).2).
Proof. apply addChildAt_keeps_linked_run. Qed.

Lemma addChildAt_keeps_the_links_witness :
  linked (store (addChildAt 0%nat 5%nat 1 (mkWorld two_families [])).2).
Proof.
  apply (addChildAt_keeps_the_links 0%nat 5%nat 1 (mkWorld two_families [])).
  exact linked_two_families.
Defined.

(** X8: in a linked store a second identical call of [addChildAt] does
    nothing: once the child is at [index] the call returns it and leaves the
    store and the log alone.  The one exception is a child of [this] sent to
    the position [length], which does not end at that position. *)
Theorem addChildAt_again_does_nothing this c index w :
  linked (store w) ->
  0 <= index <= len (children (store w this)) ->
  ~ (parent (store w c) = Some this /\ index = len (children (store w this))) ->
  exists w1,
    addChildAt this c index w = (Return c, w1)
    /\ addChildAt this c index w1 = (Return c, w1).
Proof.
  intros Hl Hi Hexcl.
  destruct (decide (in_place this c index (store w))) as [Hp|Hp].
  { exists w. split; by apply addChildAt_kept. }
  destruct (addChildAt_linked_run this c index w Hl Hi Hp)
    as (h' & Hrun & Hcs & _ & Hparent & Hnd).
  eexists. split; [exact Hrun|].
  set (cs1 := children (unlinked c (store w) this)) in *.
  assert (index <= len cs1) as Hi1.
  { pose proof (unlinked_children this c (store w)) as Hu.
    cbv zeta in Hu. fold cs1 in Hu.
    destruct Hu as [(H1 & H2 & H3)|[_ H]]; [|rewrite H; lia].
    destruct (decide (index = len (children (store w this))));
      [exfalso; by apply Hexcl | lia]. }
  assert (children (h' this) !! Z.to_nat index = Some c) as Hat.
  { rewrite Hcs. apply list_lookup_middle.
    rewrite length_take. unfold len in Hi1. lia. }
  apply addChildAt_kept; cbn [store].
  - pose proof (lookup_lt_Some _ _ _ Hat). unfold len. lia.
  - split.
    + rewrite Hparent. by rewrite decide_True.
    + rewrite (indexOf_NoDup _ _ _ (Hnd this) Hat). lia.
Qed.

Lemma addChildAt_again_does_nothing_witness :
  exists w1,
    addChildAt 0%nat 5%nat 1 (mkWorld two_families []) = (Return 5%nat, w1)
    /\ addChildAt 0%nat 5%nat 1 w1 = (Return 5%nat, w1).
Proof.
  apply (addChildAt_again_does_nothing 0%nat 5%nat 1 (mkWorld two_families [])).
  - exact linked_two_families.
  - compute_done.
  - intros [H _]. vm_compute in H. discriminate.
Defined.

(** X9: in a linked store, [addChildAt(c, length)] on a child [c] of [this]
    is accepted and moves [c] to the last position, which is [length - 1]:
    the other children keep their order, the array keeps its length, and the
    [childAdded] notification carries the index [length]. *)
Theorem addChildAt_own_child_at_length_goes_last this c w :
  let cs := children (store w this) in
  linked (store w) -> parent (store w c) = Some this ->
  exists w' new,
    addChildAt this c (len cs) w = (Return c, w')
    /\ children (store w' this) = splice (indexOf cs c) 1 [] cs ++ [c]
    /\ len (children (store w' this)) = len cs
    /\ item (children (store w' this)) (len cs - 1) = Some c
    /\ log w' = log w ++ new
    /\ emitted new = [(this, childAdded c this (len cs)); (c, added this)].
Proof.
  intros cs Hl Hp.
  assert (c ∈ cs) as Hin by (by apply Hl).
  destruct (indexOf_member cs c Hin) as [Hb _].
  pose proof (len_nonneg cs) as Hn.
  assert (~ in_place this c (len cs) (store w)) as Hplace.
  { intros [_ Hc]. fold cs in Hc. lia. }
  assert (0 <= len cs <= len cs) as Hi by lia.
  rewrite (addChildAt_moved this c (len cs) w Hi Hplace).
  destruct (addChildAt_insert_run this c (len cs)
              (mkWorld (unlinked c (store w)) (log w)))
    as (h' & -> & Hcs & _); [lia|].
  cbn [store] in Hcs. rewrite unlinked_children_of in Hcs.
  rewrite bool_decide_eq_true_2 in Hcs by done. fold cs in Hcs.
  pose proof (cut_length cs c Hin) as Hlen.
  set (cs1 := splice (indexOf cs c) 1 [] cs) in *.
  rewrite take_ge, drop_ge in Hcs by (unfold len in *; lia).
  eexists. eexists. split; [reflexivity|]. cbn [store log]. rewrite Hcs.
  split; [done|]. split; [|split; [|split; [reflexivity|]]].
  - unfold len in *. rewrite length_app. simpl. lia.
  - apply item_Some. split; [lia|].
    replace (Z.to_nat (len cs - 1)) with (length cs1)
      by (unfold len in *; lia).
    rewrite lookup_app_r by lia. by rewrite Nat.sub_diag.
  - by destruct (layerGroup (unlinked c (store w) this)).
Qed.

Lemma addChildAt_own_child_at_length_goes_last_witness :
  exists w' new,
    addChildAt 0%nat 1%nat 3 (mkWorld family []) = (Return 1%nat, w')
    /\ children (store w' 0%nat) = [2; 3; 1]%nat
    /\ log w' = [] ++ new
    /\ emitted new = [(0%nat, childAdded 1%nat 0%nat 3); (1%nat, added 0%nat)].
Proof.
  destruct (addChildAt_own_child_at_length_goes_last 0%nat 1%nat (mkWorld family []))
    as (w' & new & Hrun & Hcs & _ & _ & Hlog & Hem).
  - exact linked_family.
  - reflexivity.
  - exists w', new. split; [exact Hrun|]. split; [exact Hcs|].
    split; [exact Hlog | exact Hem].
Defined.

(** ** Reindexing *)

(** X10: [setChildIndex] checks the index first and the child second: an
    index outside [0, length) gives the out-of-bounds error even for a
    container that is no child, an index inside gives the not-a-child error
    for a container that is no child, both with nothing changed, and every
    other call returns. *)
Theorem setChildIndex_throws_iff this c index w :
  let cs := children (store w this) in
  (~ (0 <= index < len cs) ->
   setChildIndex this c index w = (Throw (Error_setChildIndex index (len cs)), w))
  /\ (0 <= index < len cs -> c ∉ cs ->
      setChildIndex this c index w = (Throw Error_notAChild, w))
  /\ ((exists w', setChildIndex this c index w = (Return tt, w'))
      <-> 0 <= index < len cs /\ c ∈ cs).
Proof.
  intros cs. split; [apply setChildIndex_outside|].
  split; [apply setChildIndex_stranger|]. split.
  - intros [w' Hrun].
    destruct (decide (0 <= index < len cs)) as [Hi|Hi];
      [|rewrite setChildIndex_outside in Hrun by done; congruence].
    destruct (decide (c ∈ cs)) as [Hin|Hin]; [done|].
    rewrite setChildIndex_stranger in Hrun by done. congruence.
  - intros [Hi Hin]. rewrite setChildIndex_member by done.
    assert (0 <= index <= len cs) as Hi' by lia.
    destruct (addChildAt_returns this c index w Hi') as [w' Hrun].
    exists w'. unfold bind, ret. by rewrite Hrun.
Qed.

Lemma setChildIndex_throws_iff_witness :
  setChildIndex 0%nat 7%nat 5 (mkWorld family [])
  = (Throw (Error_setChildIndex 5 3), mkWorld family [])
  /\ setChildIndex 0%nat 7%nat 1 (mkWorld family [])
     = (Throw Error_notAChild, mkWorld family []).
Proof.
  destruct (setChildIndex_throws_iff 0%nat 7%nat 5 (mkWorld family []))
    as (H1 & _ & _).
  destruct (setChildIndex_throws_iff 0%nat 7%nat 1 (mkWorld family []))
    as (_ & H2 & _).
  split.
  - apply H1. compute_done.
  - apply H2; compute_done.
Defined.

(** X11: in a linked store, [setChildIndex(c, index)] on a child [c] with an
    index inside the array leaves [c] at that index: afterwards
    [getChildIndex(c)] returns [index] and [getChildAt(index)] returns [c];
    the children are the same containers as before in another order, and the
    store is linked as before. *)
Theorem setChildIndex_puts_the_child_at_index this c index w :
  let cs := children (store w this) in
  linked (store w) -> c ∈ cs -> 0 <= index < len cs ->
  exists w',
    setChildIndex this c index w = (Return tt, w')
    /\ getChildIndex this c w' = (Return index, w')
    /\ getChildAt this index w' = (Return (Some c), w')
    /\ children (store w' this) ≡ₚ cs
    /\ linked (store w').
Proof.
  intros cs Hl Hin Hi.
  assert (parent (store w c) = Some this) as Hp by (by apply Hl).
  destruct (indexOf_member cs c Hin) as [Hb Hat].
  rewrite setChildIndex_member by done.
  assert (0 <= index <= len cs) as Hi' by lia.
  pose proof (addChildAt_keeps_linked_run this c index w Hl) as Hl'.
  destruct (decide (in_place this c index (store w))) as [Hplace|Hplace].
  - rewrite (addChildAt_kept this c index w Hi' Hplace) in Hl'.
    exists w. unfold bind at 1. rewrite (addChildAt_kept this c index w Hi' Hplace).
    destruct Hplace as [_ Hc]. fold cs in Hc.
    split; [done|]. split; [|split; [|done]].
    + rewrite getChildIndex_member by done. fold cs. by rewrite Hc.
    + rewrite getChildAt_inside by done. fold cs. do 2 f_equal.
      apply item_Some. split; [lia | by rewrite <- Hc].
  - destruct (addChildAt_linked_run this c index w Hl Hi' Hplace)
      as (h' & Hrun & Hcs & _ & _ & Hnd).
    rewrite Hrun in Hl'. cbn [snd store] in Hl'.
    rewrite unlinked_children_of in Hcs.
    rewrite bool_decide_eq_true_2 in Hcs by done. fold cs in Hcs.
    pose proof (cut_length cs c Hin) as Hlen.
    pose proof (cut_Permutation cs c Hin) as Hperm.
    set (cs1 := splice (indexOf cs c) 1 [] cs) in *.
    assert (children (h' this) !! Z.to_nat index = Some c) as Hat'.
    { rewrite Hcs. apply list_lookup_middle.
      rewrite length_take. unfold len in *. lia. }
    pose proof (lookup_lt_Some _ _ _ Hat') as Hlt.
    eexists. unfold bind at 1. rewrite Hrun. split; [reflexivity|].
    split; [|split; [|split; [|done]]].
    + rewrite getChildIndex_member
        by (cbn [store]; by eapply list_elem_of_lookup_2).
      cbn [store]. rewrite (indexOf_NoDup _ _ _ (Hnd this) Hat').
      do 2 f_equal. lia.
    + rewrite getChildAt_inside by (cbn [store]; unfold len; lia).
      cbn [store]. do 2 f_equal. apply item_Some. split; [lia | done].
    + cbn [store]. by rewrite Hcs, placed_Permutation, Hperm.
Qed.

Lemma setChildIndex_puts_the_child_at_index_witness :
  exists w',
    setChildIndex 0%nat 1%nat 2 (mkWorld family []) = (Return tt, w')
    /\ getChildIndex 0%nat 1%nat w' = (Return 2, w')
    /\ getChildAt 0%nat 2 w' = (Return (Some 1%nat), w').
Proof.
  destruct (setChildIndex_puts_the_child_at_index
              0%nat 1%nat 2 (mkWorld family []))
    as (w' & Hrun & Hidx & Hat & _).
  - exact linked_family.
  - compute_done.
  - compute_done.
  - exists w'. split; [exact Hrun|]. split; [exact Hidx | exact Hat].
Defined.

(** X12: [setChildIndex] goes through [addChildAt], so moving a child of
    [this] to another index notifies like an insertion, with [childAdded] on
    [this] and [added] on the child and no removal notification, and marks
    the child changed, while the array keeps its length; setting the index
    at which the child already is changes nothing and notifies no one. *)
Theorem setChildIndex_reorder_notifies_as_added this c index w :
  let cs := children (store w this) in
  parent (store w c) = Some this -> c ∈ cs -> 0 <= index < len cs ->
  (indexOf cs c = index -> setChildIndex this c index w = (Return tt, w))
  /\ (indexOf cs c <> index ->
      exists w' new,
        setChildIndex this c index w = (Return tt, w')
        /\ log w' = log w ++ new
        /\ emitted new = [(this, childAdded c this index); (c, added this)]
        /\ didChange (store w' c) = true
        /\ didViewUpdate (store w' c) = false
        /\ updateFlags (store w' c) = 15
        /\ len (children (store w' this)) = len cs).
Proof.
  intros cs Hp Hin Hi.
  assert (0 <= index <= len cs) as Hi' by lia.
  rewrite setChildIndex_member by done. split.
  - intros Hc. unfold bind.
    by rewrite (addChildAt_kept this c index w Hi' (conj Hp Hc)).
  - intros Hc.
    assert (~ in_place this c index (store w)) as Hplace by (by intros [_ ?]).
    unfold bind at 1. rewrite (addChildAt_moved this c index w Hi' Hplace).
    destruct (addChildAt_insert_run this c index
                (mkWorld (unlinked c (store w)) (log w)))
      as (h' & -> & Hcs & _ & Hd & Hv & Hu & _); [lia|].
    cbn [store] in Hcs. rewrite unlinked_children_of in Hcs.
    rewrite bool_decide_eq_true_2 in Hcs by done. fold cs in Hcs.
    eexists. eexists. split; [reflexivity|]. cbn [store log].
    split; [reflexivity|].
    split; [by destruct (layerGroup (unlinked c (store w) this))|].
    repeat split; try done.
    rewrite Hcs, placed_length, cut_length by done. lia.
Qed.

Lemma setChildIndex_reorder_notifies_as_added_witness :
  setChildIndex 0%nat 2%nat 1 (mkWorld family []) = (Return tt, mkWorld family [])
  /\ exists w' new,
       setChildIndex 0%nat 2%nat 0 (mkWorld family []) = (Return tt, w')
       /\ log w' = [] ++ new
       /\ emitted new = [(0%nat, childAdded 2%nat 0%nat 0); (2%nat, added 0%nat)].
Proof.
  destruct (setChildIndex_reorder_notifies_as_added 0%nat 2%nat 1 (mkWorld family []))
    as (H1 & _); [reflexivity | compute_done | compute_done |].
  destruct (setChildIndex_reorder_notifies_as_added 0%nat 2%nat 0 (mkWorld family []))
    as (_ & H2); [reflexivity | compute_done | compute_done |].
  split.
  - apply H1. reflexivity.
  - destruct H2 as (w' & new & Hrun & Hlog & Hem & _); [discriminate|].
    exists w', new. split; [exact Hrun|]. split; [exact Hlog | exact Hem].
Defined.

(** ** Swapping *)

(** What [swapChildren] leaves: the same containers in the same array. *)
Lemma swapped_Permutation (cs : list node) a b :
  a ∈ cs -> b ∈ cs ->
  assign (indexOf cs b) a (assign (indexOf cs a) b cs) ≡ₚ cs.
Proof.
  intros Ha Hb. destruct (indexOf_member cs a Ha) as [_ Hia].
  destruct (indexOf_member cs b Hb) as [_ Hib].
  unfold assign. by apply Permutation_insert_swap.
Qed.

Lemma swapChildren_throws_aux this a b w :
  a <> b /\ (a ∉ children (store w this) \/ b ∉ children (store w this)) ->
  swapChildren this a b w = (Throw Error_notAChild, w).
Proof.
  intros [Hne Hout]. unfold swapChildren. rewrite bool_decide_eq_false_2 by done.
  destruct (decide (a ∈ children (store w this))) as [Ha|Ha].
  - destruct Hout as [?|Hb]; [done|].
    unfold bind at 1. rewrite getChildIndex_member by done.
    unfold bind at 1. by rewrite getChildIndex_stranger.
  - unfold bind at 1. by rewrite getChildIndex_stranger.
Qed.

(** X13: [swapChildren] throws its not-a-child error exactly when the two
    arguments are different containers and one of them is not among the
    children; nothing is changed then. *)
Theorem swapChildren_throws_iff this a b w :
  let cs := children (store w this) in
  swapChildren this a b w = (Throw Error_notAChild, w)
  <-> a <> b /\ (a ∉ cs \/ b ∉ cs).
Proof.
  intros cs. destruct (decide (a = b)) as [->|Hne].
  { rewrite swapChildren_same. split; [congruence | by intros [? _]]. }
  destruct (decide (a ∈ cs)) as [Ha|Ha].
  - destruct (decide (b ∈ cs)) as [Hb|Hb].
    + destruct (swapChildren_run this a b w Hne Ha Hb) as (h' & -> & _).
      split; [congruence | intros [_ [?|?]]; done].
    + unfold swapChildren. rewrite bool_decide_eq_false_2 by done.
      unfold bind at 1. rewrite getChildIndex_member by done.
      unfold bind at 1. rewrite getChildIndex_stranger by done.
      split; [intros _; split; [done | by right] | done].
  - unfold swapChildren. rewrite bool_decide_eq_false_2 by done.
    unfold bind at 1. rewrite getChildIndex_stranger by done.
    split; [intros _; split; [done | by left] | done].
Qed.

(** X14: where the children hold no container twice, swapping the same two
    children twice puts everything back: after the second call every
    container of the store and the log are what they were before the first. *)
Theorem swapChildren_twice_restores this a b w :
  NoDup (children (store w this)) ->
  a ∈ children (store w this) -> b ∈ children (store w this) ->
  exists w1 w2,
    swapChildren this a b w = (Return tt, w1)
    /\ swapChildren this a b w1 = (Return tt, w2)
    /\ log w2 = log w
    /\ forall m, store w2 m = store w m.
Proof.
  intros Hnd Ha Hb. set (cs := children (store w this)) in *.
  destruct (decide (a = b)) as [->|Hne].
  { exists w, w. by rewrite !swapChildren_same. }
  destruct (swapChildren_run this a b w Hne Ha Hb) as (h1 & Hrun1 & Hthis1 & Hrest1).
  fold cs in Hthis1.
  destruct (indexOf_member cs a Ha) as [_ Hia].
  destruct (indexOf_member cs b Hb) as [_ Hib].
  set (i := Z.to_nat (indexOf cs a)) in *. set (j := Z.to_nat (indexOf cs b)) in *.
  assert (i <> j) as Hij by (intros E; rewrite E in Hia; congruence).
  pose proof (lookup_lt_Some _ _ _ Hia) as Hli.
  pose proof (lookup_lt_Some _ _ _ Hib) as Hlj.
  set (cs1 := assign (indexOf cs b) a (assign (indexOf cs a) b cs)) in *.
  assert (cs1 = <[j:=a]> (<[i:=b]> cs)) as Hcs1 by done.
  assert (NoDup cs1) as Hnd1.
  { unfold cs1. by rewrite swapped_Permutation. }
  assert (cs1 !! j = Some a) as Hja.
  { rewrite Hcs1. apply list_lookup_insert_eq. by rewrite length_insert. }
  assert (cs1 !! i = Some b) as Hib'.
  { rewrite Hcs1. rewrite list_lookup_insert_ne by done.
    by apply list_lookup_insert_eq. }
  assert (children (h1 this) = cs1) as Hch1 by (by rewrite Hthis1).
  destruct (swapChildren_run this a b (mkWorld h1 (log w)) Hne)
    as (h2 & Hrun2 & Hthis2 & Hrest2); cbn [store log] in *.
  { rewrite Hch1. by eapply list_elem_of_lookup_2. }
  { rewrite Hch1. by eapply list_elem_of_lookup_2. }
  exists (mkWorld h1 (log w)), (mkWorld h2 (log w)).
  split; [done|]. split; [done|]. split; [done|]. cbn [store].
  intros m. destruct (decide (m = this)) as [->|Hm];
    [|by rewrite Hrest2, Hrest1].
  rewrite Hthis2, Hch1.
  rewrite (indexOf_NoDup _ _ _ Hnd1 Hja), (indexOf_NoDup _ _ _ Hnd1 Hib').
  unfold assign. rewrite !Nat2Z.id, Hcs1, Hthis1.
  rewrite list_insert_insert_eq.
  rewrite (list_insert_insert_ne _ i j) by done.
  rewrite list_insert_insert_eq.
  rewrite (list_insert_id cs i a) by done.
  rewrite (list_insert_id cs j b) by done.
  unfold cs. by destruct (store w this).
Qed.

Lemma swapChildren_twice_restores_witness :
  exists w1 w2,
    swapChildren 0%nat 1%nat 3%nat (mkWorld family []) = (Return tt, w1)
    /\ swapChildren 0%nat 1%nat 3%nat w1 = (Return tt, w2)
    /\ log w2 = []
    /\ forall m, store w2 m = family m.
Proof.
  apply (swapChildren_twice_restores 0%nat 1%nat 3%nat (mkWorld family []));
    compute_done.
Defined.

(** X15: [swapChildren] keeps a linked store linked and keeps the children
    of [this] the same containers, whatever its arguments. *)
Theorem swapChildren_keeps_the_links this a b w :
  linked (store w) ->
  linked (store (swapChildren this a b w).2)
  /\ children (store (swapChildren this a b w).2 this) ≡ₚ children (store w this).
Proof.
  intros Hl. set (cs := children (store w this)).
  destruct (decide (a <> b /\ a ∈ cs /\ b ∈ cs)) as [(Hne & Ha & Hb)|Hno].
  - destruct (swapChildren_run this a b w Hne Ha Hb) as (h' & -> & Hthis & Hrest).
    cbn [snd store]. fold cs in Hthis.
    pose proof (swapped_Permutation cs a b Ha Hb) as Hperm.
    assert (forall x, parent (h' x) = parent (store w x)) as Hpar.
    { intros x. destruct (decide (x = this)) as [->|Hx];
        [by rewrite Hthis | by rewrite Hrest]. }
    destruct Hl as [Hlink Hnd]. split; [split|].
    + intros p x. rewrite Hpar, <- Hlink.
      destruct (decide (p = this)) as [->|Hp]; [|by rewrite Hrest].
      rewrite Hthis. cbn [children with_children]. by rewrite Hperm.
    + intros p. destruct (decide (p = this)) as [->|Hp]; [|by rewrite Hrest].
      rewrite Hthis. cbn [children with_children]. rewrite Hperm. apply Hnd.
    + by rewrite Hthis.
  - assert ((swapChildren this a b w).2 = w) as ->; [|done].
    destruct (swapChildren this a b w) as [[[]|e] w'] eqn:Hrun; cbn [snd].
    + destruct (decide (a = b)) as [->|Hne];
        [rewrite swapChildren_same in Hrun; congruence|].
      exfalso. apply Hno. split; [done|].
      destruct (decide (a ∈ cs)) as [Ha|Ha]; [split; [done|]|].
      * destruct (decide (b ∈ cs)) as [Hb|Hb]; [done|].
        assert (a <> b /\ (a ∉ cs \/ b ∉ cs)) as Hthrow by (split; [done | by right]).
        apply swapChildren_throws_aux in Hthrow. congruence.
      * assert (a <> b /\ (a ∉ cs \/ b ∉ cs)) as Hthrow by (split; [done | by left]).
        apply swapChildren_throws_aux in Hthrow. congruence.
    + by eapply swapChildren_throws.
Qed.

Lemma swapChildren_keeps_the_links_witness :
  linked (store (swapChildren 0%nat 1%nat 3%nat (mkWorld family [])).2)
  /\ children (store (swapChildren 0%nat 1%nat 3%nat (mkWorld family [])).2 0%nat)
     ≡ₚ [1; 2; 3]%nat.
Proof.
  apply (swapChildren_keeps_the_links 0%nat 1%nat 3%nat (mkWorld family [])).
  exact linked_family.
Defined.

(** ** Bulk removal *)



(** X17: [removeChildren] touches parents only: when it returns, the parent
    of every returned container is cleared, the parent of every other
    container is what it was, and no flag ([didChange], [didViewUpdate],
    [updateFlags], [sortDirty]) of any container and no array of children of
    any container other than [this] has changed. *)
Theorem removeChildren_touches_parents_only this beginIndex endIndex w batch w' :
  removeChildren this beginIndex endIndex w = (Return batch, w') ->
  forall m,
    (m ∈ batch -> parent (store w' m) = None)
    /\ (m ∉ batch -> parent (store w' m) = parent (store w m))
    /\ (m <> this -> children (store w' m) = children (store w m))
    /\ didChange (store w' m) = didChange (store w m)
    /\ didViewUpdate (store w' m) = didViewUpdate (store w m)
    /\ updateFlags (store w' m) = updateFlags (store w m)
    /\ sortDirty (store w' m) = sortDirty (store w m).
Proof.
  intros Hrun m.
  set (b := default 0 beginIndex).
  set (cs := children (store w this)).
  set (e := default (len cs) endIndex).
  destruct (decide (0 <= b /\ b < e)) as [[Hb Hbe]|Hr].
  { destruct (removeChildren_accepted this beginIndex endIndex w Hb Hbe)
      as (h' & Hrun' & Hrest & Hthis). fold b cs e in Hrun', Hrest, Hthis.
    rewrite Hrun' in Hrun. injection Hrun as <- <-. cbn [store].
    set (gone := take (Z.to_nat (e - b)) (drop (Z.to_nat b) cs)) in *.
    rewrite elem_of_reverse.
    assert (forall f : Container -> bool,
              (forall p x, f (with_parent p x) = f x) ->
              (forall l x, f (with_children l x) = f x) ->
              f (h' m) = f (store w m)) as Hflag.
    { intros f Hf1 Hf2. destruct (decide (m = this)) as [->|Hm].
      - rewrite Hthis, Hf2. unfold detached. by case_bool_decide.
      - rewrite Hrest by done. unfold detached. by case_bool_decide. }
    split; [|split; [|split; [|split; [|split; [|split]]]]].
    - intros Hin. destruct (decide (m = this)) as [->|Hm].
      + rewrite Hthis. cbn [parent with_children]. by apply detached_parent.
      + rewrite Hrest by done. by apply detached_parent.
    - intros Hout. destruct (decide (m = this)) as [->|Hm].
      + rewrite Hthis. unfold detached. by rewrite bool_decide_eq_false_2.
      + rewrite Hrest by done. unfold detached. by rewrite bool_decide_eq_false_2.
    - intros Hm. rewrite Hrest by done. unfold detached. by case_bool_decide.
    - by apply (Hflag didChange).
    - by apply (Hflag didViewUpdate).
    - destruct (decide (m = this)) as [->|Hm].
      + rewrite Hthis. unfold detached. by case_bool_decide.
      + rewrite Hrest by done. unfold detached. by case_bool_decide.
    - by apply (Hflag sortDirty). }
  destruct (decide (e = b /\ cs = [])) as [[He Hcs]|Hn].
  { rewrite (removeChildren_nothing this beginIndex endIndex w He Hcs) in Hrun.
    injection Hrun as <- <-. repeat split; try done. by intros ?%elem_of_nil. }
  rewrite (removeChildren_refused this beginIndex endIndex w Hr Hn) in Hrun.
  discriminate.
Qed.

Lemma removeChildren_touches_parents_only_witness :
  exists w',
    removeChildren 0%nat (Some 1) None (mkWorld family []) = (Return [3; 2]%nat, w')
    /\ parent (store w' 3%nat) = None
    /\ parent (store w' 1%nat) = Some 0%nat.
Proof.
  set (w' := (removeChildren 0%nat (Some 1) None (mkWorld family [])).2).
  assert (removeChildren 0%nat (Some 1) None (mkWorld family [])
          = (Return [3; 2]%nat, w')) as Hrun by reflexivity.
  exists w'. split; [exact Hrun|].
  destruct (removeChildren_touches_parents_only _ _ _ _ _ _ Hrun 3%nat)
    as (H3 & _).
  destruct (removeChildren_touches_parents_only _ _ _ _ _ _ Hrun 1%nat)
    as (_ & H1 & _).
  split.
  - apply H3. compute_done.
  - rewrite H1; [reflexivity | compute_done].
Defined.
